(** * Anzen runtime: reference-counted objects

    A shallow embedding of [Sources/Runtime/runtime.cc] and
    [Sources/Runtime/include/runtime.h]: the [azn_gc_object] record and the
    three operations [azn_gc_object_init], [azn_gc_object_retain] and
    [azn_gc_object_release], over an explicit model of the C heap.

    The operations are written in a small state-and-undefined-behaviour monad,
    statement by statement as in the source.  Every call that leaves the
    runtime (to [malloc], to [free], to a destructor) is logged in a trace, so
    that "how often" and "in which order" are properties of a list. *)

From Stdlib Require Import ZArith List Lia.
From stdpp Require Import base option gmap list.

Local Open Scope Z_scope.

(** ** Data model *)

(** Pointers (to data and to functions) are integers; [0] is [nullptr]. *)
Definition nullptr : Z := 0.

(** [struct azn_gc_object] of runtime.h: three pointer fields. *)
Record azn_gc_object : Type := mk_object {
  value      : Z;   (* pointer to the managed object *)
  destructor : Z;   (* pointer to the destructor of the object *)
  count      : Z;   (* pointer to the number of references *)
}.

(** A block handed out by [malloc]: its size in bytes and, when one has been
    stored there, the [size_t] object at its start ([None]: indeterminate). *)
Record block : Type := mk_block {
  blk_size : Z;
  blk_word : option Z;
}.

(** What the runtime asks of its environment. *)
Inductive event : Type :=
  | EvMalloc (size p : Z)      (* malloc(size) answered p *)
  | EvDestructor (f p : Z)     (* the function at f was called on p *)
  | EvFree (p : Z).            (* free(p) was called *)

(** The machine state.  [objects] is the storage of the [azn_gc_object_t]
    records themselves (owned by the callers), [heap] the live [malloc]
    blocks.  The host allocator is a bump allocator with a finite capacity:
    [brk] is the next address it hands out, [avail] the bytes it can still
    serve, and [malloc0_null] tells whether it answers [malloc(0)] with a null
    pointer (both answers are allowed to a C library). *)
Record state : Type := mk_state {
  heap         : gmap Z block;
  objects      : gmap Z azn_gc_object;
  brk          : Z;
  avail        : Z;
  malloc0_null : bool;
  trace        : list event;
}.

Definition set_heap (f : gmap Z block -> gmap Z block) (s : state) : state :=
  mk_state (f (heap s)) (objects s) (brk s) (avail s) (malloc0_null s) (trace s).

Definition set_objects (f : gmap Z azn_gc_object -> gmap Z azn_gc_object)
    (s : state) : state :=
  mk_state (heap s) (f (objects s)) (brk s) (avail s) (malloc0_null s) (trace s).

Definition log (e : event) (s : state) : state :=
  mk_state (heap s) (objects s) (brk s) (avail s) (malloc0_null s) (trace s ++ [e]).

(** Dereferencing: the null pointer designates nothing. *)
Definition deref {A : Type} (m : gmap Z A) (p : Z) : option A :=
  if p =? nullptr then None else m !! p.

(** ** The monad: state, plus undefined behaviour *)

Inductive result (A : Type) : Type :=
  | Ok (a : A) (s : state)     (* the call returned [a] in state [s] *)
  | UB (s : state).            (* undefined behaviour was reached in [s] *)
Arguments Ok {A} a s.
Arguments UB {A} s.

Definition M (A : Type) : Type := state -> result A.

Definition ret {A : Type} (a : A) : M A := fun s => Ok a s.

Definition bind {A B : Type} (m : M A) (k : A -> M B) : M B :=
  fun s => match m s with
           | Ok a s' => k a s'
           | UB s' => UB s'
           end.

Definition modify (f : state -> state) : M unit := fun s => Ok tt (f s).

(** [x ← m; k] and [m;; k], in stdpp's notation. *)
#[export] Instance M_ret : MRet M := @ret.
#[export] Instance M_bind : MBind M := fun A B k m => bind m k.

(** The state a computation ends in, whether it returned or not. *)
Definition final {A : Type} (r : result A) : state :=
  match r with Ok _ s => s | UB s => s end.

Definition returned {A : Type} (r : result A) : bool :=
  match r with Ok _ _ => true | UB _ => false end.

(** ** The environment: record fields, memory, allocator, callbacks *)

(** [object->f], read. *)
Definition get_field (object : Z) (f : azn_gc_object -> Z) : M Z :=
  fun s => match deref (objects s) object with
           | Some o => Ok (f o) s
           | None => UB s
           end.

(** [object->f = x], for each of the three fields. *)
Definition set_field (object : Z) (upd : azn_gc_object -> azn_gc_object) : M unit :=
  fun s => match deref (objects s) object with
           | Some o => Ok tt (set_objects <[object := upd o]> s)
           | None => UB s
           end.

Definition with_value (p : Z) (o : azn_gc_object) : azn_gc_object :=
  mk_object p (destructor o) (count o).
Definition with_destructor (f : Z) (o : azn_gc_object) : azn_gc_object :=
  mk_object (value o) f (count o).
Definition with_count (c : Z) (o : azn_gc_object) : azn_gc_object :=
  mk_object (value o) (destructor o) c.

Section Runtime.

(** [sizeof(size_t)], in bytes: fixed by the platform, not by the runtime. *)
Variable sizeof_size_t : positive.

Definition SIZEOF : Z := Z.pos sizeof_size_t.
Definition SIZE_MOD : Z := 2 ^ (8 * SIZEOF).
Definition SIZE_MAX : Z := SIZE_MOD - 1.

(** Arithmetic on [size_t] wraps around. *)
Definition wrap (v : Z) : Z := v mod SIZE_MOD.

(** The [size_t] that can be read at [p]: the block must be live, large
    enough, and hold a value. *)
Definition read_size_t (p : Z) (s : state) : option Z :=
  match deref (heap s) p with
  | Some b => if SIZEOF <=? blk_size b then blk_word b else None
  | None => None
  end.

(** The state once a [size_t] has been written at [p]. *)
Definition write_size_t (p v : Z) (s : state) : state :=
  set_heap (alter (fun b => mk_block (blk_size b) (Some v)) p) s.

(** [*p], read as a [size_t]. *)
Definition load_size_t (p : Z) : M Z :=
  fun s => match read_size_t p s with
           | Some v => Ok v s
           | None => UB s
           end.

(** [*p = v], written as a [size_t]: the block must be live and large
    enough. *)
Definition store_size_t (p v : Z) : M unit :=
  fun s => match deref (heap s) p with
           | Some b =>
               if SIZEOF <=? blk_size b then Ok tt (write_size_t p v s)
               else UB s
           | None => UB s
           end.

End Runtime.

(** The state once a fresh block of [n] bytes has been handed out at [brk]. *)
Definition grant (n : Z) (s : state) : state :=
  mk_state (<[brk s := mk_block n None]> (heap s)) (objects s)
           (brk s + Z.max n 1) (avail s - n) (malloc0_null s)
           (trace s ++ [EvMalloc n (brk s)]).

(** Whether the allocator serves a request of [n] bytes. *)
Definition serves (n : Z) (s : state) : bool :=
  (n <=? avail s) && negb (malloc0_null s && (n =? 0)).

(** [malloc(n)]: a fresh block of indeterminate contents, or the null pointer
    when the request is not served. *)
Definition malloc (n : Z) : M Z :=
  fun s =>
    if serves n s then Ok (brk s) (grant n s)
    else Ok nullptr (log (EvMalloc n nullptr) s).

(** The state once the live block [b] at [p] has gone back to the allocator. *)
Definition reclaim (p : Z) (b : block) (s : state) : state :=
  mk_state (delete p (heap s)) (objects s) (brk s) (avail s + blk_size b)
           (malloc0_null s) (trace s).

(** [free(p)]: nothing for the null pointer; the block is returned to the
    allocator when [p] is live; undefined otherwise. *)
Definition free (p : Z) : M unit :=
  fun s =>
    let s' := log (EvFree p) s in
    if p =? nullptr then Ok tt s'
    else match heap s !! p with
         | Some b => Ok tt (reclaim p b s')
         | None => UB s'
         end.

(** A call through a destructor pointer.  The callee is caller-supplied code:
    it is trusted to complete and to leave the record, the counter and the
    allocator alone, so all the runtime can observe of it is that it ran. *)
Definition call (f p : Z) : M unit := modify (log (EvDestructor f p)).

Section Operations.

Variable sizeof_size_t : positive.

(** ** The three operations of runtime.cc *)

Definition azn_gc_object_init (object size destructor : Z) : M unit :=
  p ← malloc size;
  set_field object (with_value p);;
  set_field object (with_destructor destructor);;
  c ← malloc (SIZEOF sizeof_size_t);
  set_field object (with_count c);;
  c ← get_field object count;
  store_size_t sizeof_size_t c 1.

Definition azn_gc_object_retain (object : Z) : M unit :=
  c ← get_field object count;
  v ← load_size_t sizeof_size_t c;
  store_size_t sizeof_size_t c (wrap sizeof_size_t (v + 1)).

Definition azn_gc_object_release (object : Z) : M unit :=
  c ← get_field object count;
  v ← load_size_t sizeof_size_t c;
  store_size_t sizeof_size_t c (wrap sizeof_size_t (v - 1));;
  c ← get_field object count;
  v ← load_size_t sizeof_size_t c;
  if v =? 0 then
    d ← get_field object destructor;
    (if negb (d =? nullptr) then
       p ← get_field object value;
       call d p
     else mret tt);;
    p ← get_field object value;
    free p
  else mret tt.

End Operations.

(** ** Observations on states *)

(** The record stored at [object], and the value of its counter. *)
Definition record_at (object : Z) (s : state) : option azn_gc_object :=
  deref (objects s) object.

Definition counter (sizeof_size_t : positive) (object : Z) (s : state) : option Z :=
  match record_at object s with
  | Some o => read_size_t sizeof_size_t (count o) s
  | None => None
  end.

(** The payload of [o] has not been given back: it is null (nothing to give
    back) or a live block. *)
Definition payload_held (o : azn_gc_object) (s : state) : bool :=
  (value o =? nullptr) || bool_decide (is_Some (heap s !! value o)).

(** ** Sequences of calls on one record *)

Inductive op : Type := Retain | Release.

Section Runs.

Variable sizeof_size_t : positive.

Definition step (object : Z) (o : op) : M unit :=
  match o with
  | Retain => azn_gc_object_retain sizeof_size_t object
  | Release => azn_gc_object_release sizeof_size_t object
  end.

Fixpoint run (object : Z) (ops : list op) : M unit :=
  match ops with
  | [] => mret tt
  | o :: rest => step object o;; run object rest
  end.

End Runs.

(** ** Observations on traces *)

(** How many destructor calls a trace holds. *)
Fixpoint cleanups (t : list event) : nat :=
  match t with
  | [] => 0%nat
  | EvDestructor _ _ :: rest => S (cleanups rest)
  | _ :: rest => cleanups rest
  end.

(** What finalization adds to the trace: the destructor call, if there is a
    destructor, and then the [free] of the payload. *)
Definition cleanup_events (o : azn_gc_object) : list event :=
  if destructor o =? nullptr then []
  else [EvDestructor (destructor o) (value o)].

Definition finalize_events (o : azn_gc_object) : list event :=
  cleanup_events o ++ [EvFree (value o)].

(** The state once the destructor of [o], if it has one, has been called. *)
Definition after_cleanup (o : azn_gc_object) (s : state) : state :=
  if destructor o =? nullptr then s
  else log (EvDestructor (destructor o) (value o)) s.

(** ** Call sequences that respect the ownership contract

    [owners] is the number of outstanding owners as the callers count them:
    one after [init], one more for each [retain], one less for each
    [release].  A sequence is balanced when no call is made on an object
    without an owner. *)
Fixpoint balanced (owners : Z) (ops : list op) : bool :=
  match ops with
  | [] => true
  | Retain :: rest => (0 <? owners) && balanced (owners + 1) rest
  | Release :: rest => (0 <? owners) && balanced (owners - 1) rest
  end.

(** The largest number of owners a sequence reaches. *)
Fixpoint peak (owners : Z) (ops : list op) : Z :=
  match ops with
  | [] => owners
  | Retain :: rest => Z.max owners (peak (owners + 1) rest)
  | Release :: rest => Z.max owners (peak (owners - 1) rest)
  end.

(** ** Calls through several handles

    An owner keeps its own copy of the record; the copies share the payload
    and the counter through the two pointers.  A call names the handle (the
    address of the copy) it goes through. *)

Section Handles.

Variable sizeof_size_t : positive.

Fixpoint run_on (calls : list (Z * op)) : M unit :=
  match calls with
  | [] => mret tt
  | (handle, o) :: rest => step sizeof_size_t handle o;; run_on rest
  end.

End Handles.

(** ** The allocator's invariant

    The allocator has never handed out the null pointer, and every live block
    lies below [brk]: what [malloc] hands out next is fresh. *)
Definition allocator_ok (s : state) : Prop :=
  0 < brk s /\ map_Forall (fun q _ => q < brk s) (heap s).

(** ** Concrete machines

    The states on which the general statements below are instantiated.  The
    record under test lives at address 100; before [init] its three fields
    hold leftovers. *)

Definition fresh (capacity : Z) (zero_is_null : bool) : state :=
  mk_state ∅ {[ 100 := mk_object 7 7 7 ]} 1 capacity zero_is_null [].

Definition s0 : state := fresh 1024 false.

(** A platform with an 8-byte [size_t]: after
    [azn_gc_object_init(100, 16, 55)]. *)
Definition s_live : state := final (azn_gc_object_init 8 100 16 55 s0).

(** The same, where the allocator has room for the payload only. *)
Definition s_tight : state := fresh 16 false.

(** A platform with a 4-byte [size_t]: after
    [azn_gc_object_init(100, 16, 55)], and with the counter at [SIZE_MAX]. *)
Definition s_live32 : state := final (azn_gc_object_init 4 100 16 55 s0).

Definition s_max32 : state := write_size_t 17 (2 ^ 32 - 1) s_live32.

(** [2^32] calls, as many as a 4-byte counter has values. *)
Definition K32 : nat := Z.to_nat (2 ^ 32).
Definition K32m2 : nat := Z.to_nat (2 ^ 32 - 2).

(** [s_live] with a second owner, whose copy of the record is at 200; and
    [s_live] once its only owner has released it. *)
Definition s_shared : state := set_objects <[200 := mk_object 1 55 17]> s_live.

Definition s_dead : state := final (azn_gc_object_release 8 100 s_live).

(** * Properties *)

Lemma cleanups_app (t u : list event) :
  cleanups (t ++ u) = (cleanups t + cleanups u)%nat.
Proof.
  induction t as [|e t IH]; simpl; [reflexivity|].
  destruct e; simpl; rewrite IH; reflexivity.
Qed.

Lemma deref_Some {A : Type} (m : gmap Z A) (p : Z) (x : A) :
  deref m p = Some x <-> p ≠ nullptr /\ m !! p = Some x.
Proof.
  unfold deref, nullptr. destruct (Z.eqb_spec p 0); split.
  - discriminate.
  - intros [? _]. contradiction.
  - auto.
  - intros [_ ?]. assumption.
Qed.

Section Properties.

Variable sizeof_size_t : positive.

(** Inside the sections below, a primed name is the definition of that name
    at the platform's [sizeof_size_t]. *)
Local Abbreviation SZ := (SIZEOF sizeof_size_t).
Local Abbreviation MOD := (SIZE_MOD sizeof_size_t).
Local Abbreviation wrap' := (wrap sizeof_size_t).
Local Abbreviation read_size_t' := (read_size_t sizeof_size_t).
Local Abbreviation load_size_t' := (load_size_t sizeof_size_t).
Local Abbreviation store_size_t' := (store_size_t sizeof_size_t).

Lemma SIZE_MOD_large : 256 <= MOD.
Proof.
  unfold SIZE_MOD, SIZEOF.
  change 256 with (2 ^ 8).
  apply Z.pow_le_mono_r; lia.
Qed.

Lemma wrap_range (v : Z) : 0 <= wrap' v < MOD.
Proof. unfold wrap. apply Z.mod_pos_bound. pose proof SIZE_MOD_large. lia. Qed.

Lemma wrap_small (v : Z) : 0 <= v < MOD -> wrap' v = v.
Proof. intros H. unfold wrap. apply Z.mod_small. exact H. Qed.

Lemma wrap_add (a b : Z) : wrap' (wrap' a + b) = wrap' (a + b).
Proof. unfold wrap. apply Zplus_mod_idemp_l. Qed.

Lemma wrap_sub (a b : Z) : wrap' (wrap' a - b) = wrap' (a - b).
Proof. unfold wrap. apply Zminus_mod_idemp_l. Qed.

(** [wrap' v] vanishes exactly on the multiples of the modulus; between two
    consecutive multiples it does not. *)
Lemma wrap_nonzero (v : Z) : 0 < v < MOD -> wrap' v <> 0.
Proof. intros H. rewrite wrap_small by lia. lia. Qed.

Lemma wrap_nonzero_neg (v : Z) : - MOD < v < 0 -> wrap' v <> 0.
Proof.
  intros H. unfold wrap.
  replace v with (v + MOD + (-1) * MOD) by ring.
  rewrite Z.mod_add by lia. rewrite Z.mod_small by lia. lia.
Qed.

Lemma wrap_pred_zero (v : Z) : 0 <= v < MOD -> wrap' (v - 1) = 0 -> v = 1.
Proof.
  intros H Hz. destruct (Z.eq_dec v 0) as [->|Hne].
  - exfalso. revert Hz. apply wrap_nonzero_neg. pose proof SIZE_MOD_large. lia.
  - rewrite wrap_small in Hz by lia. lia.
Qed.

(** Reading and writing the counter cell. *)

Lemma read_size_t_Some (p v : Z) (s : state) :
  read_size_t' p s = Some v <->
  exists b, deref (heap s) p = Some b /\ SZ <= blk_size b /\ blk_word b = Some v.
Proof.
  unfold read_size_t. split.
  - destruct (deref (heap s) p) as [b|]; [|discriminate].
    destruct (Z.leb_spec SZ (blk_size b)); [|discriminate].
    intros Hw. exists b. auto.
  - intros (b & -> & Hsz & Hw).
    destruct (Z.leb_spec SZ (blk_size b)); [assumption|lia].
Qed.

Lemma load_size_t_ok (p v : Z) (s : state) :
  read_size_t' p s = Some v -> load_size_t' p s = Ok v s.
Proof. intros H. unfold load_size_t. rewrite H. reflexivity. Qed.

Lemma store_size_t_ok (p v v' : Z) (s : state) :
  read_size_t' p s = Some v ->
  store_size_t' p v' s = Ok tt (write_size_t p v' s).
Proof.
  intros (b & Hb & Hsz & _)%read_size_t_Some.
  unfold store_size_t. rewrite Hb.
  destruct (Z.leb_spec SZ (blk_size b)); [reflexivity|lia].
Qed.

Lemma read_write_same (p v v' : Z) (s : state) :
  read_size_t' p s = Some v -> read_size_t' p (write_size_t p v' s) = Some v'.
Proof.
  intros (b & [Hp Hb]%deref_Some & Hsz & _)%read_size_t_Some.
  apply read_size_t_Some. exists (mk_block (blk_size b) (Some v')).
  split; [|auto]. apply deref_Some. split; [assumption|].
  simpl. rewrite lookup_alter_eq, Hb. reflexivity.
Qed.

Lemma heap_write_other (p q v : Z) (s : state) :
  q <> p -> heap (write_size_t p v s) !! q = heap s !! q.
Proof. intros H. simpl. apply lookup_alter_ne. congruence. Qed.

Lemma write_write (p v v' : Z) (s : state) :
  write_size_t p v' (write_size_t p v s) = write_size_t p v' s.
Proof.
  unfold write_size_t, set_heap. simpl. f_equal.
  apply map_eq. intros q. destruct (decide (p = q)) as [->|Hne].
  - rewrite !lookup_alter_eq. destruct (heap s !! q); reflexivity.
  - rewrite !lookup_alter_ne by assumption. reflexivity.
Qed.

Lemma write_read (p v : Z) (s : state) :
  read_size_t' p s = Some v -> write_size_t p v s = s.
Proof.
  intros (b & [Hp Hb]%deref_Some & Hsz & Hw)%read_size_t_Some.
  unfold write_size_t, set_heap. destruct s as [h ob bk av z t]. simpl in *.
  f_equal. apply map_eq. intros q. destruct (decide (p = q)) as [->|Hne].
  - rewrite lookup_alter_eq, Hb. destruct b as [sz w]. simpl in *. congruence.
  - rewrite lookup_alter_ne by assumption. reflexivity.
Qed.


Local Abbreviation counter' := (counter sizeof_size_t).
Local Abbreviation init' := (azn_gc_object_init sizeof_size_t).
Local Abbreviation retain' := (azn_gc_object_retain sizeof_size_t).
Local Abbreviation release' := (azn_gc_object_release sizeof_size_t).
Local Abbreviation step' := (step sizeof_size_t).
Local Abbreviation run' := (run sizeof_size_t).

(** Stepping through the monad. *)

Lemma bind_ok {A B : Type} (m : M A) (k : A -> M B) (s s' : state) (a : A) :
  m s = Ok a s' -> (m ≫= k) s = k a s'.
Proof. intros H. unfold mbind, M_bind, bind. rewrite H. reflexivity. Qed.

Lemma bind_ub {A B : Type} (m : M A) (k : A -> M B) (s s' : state) :
  m s = UB s' -> (m ≫= k) s = UB s'.
Proof. intros H. unfold mbind, M_bind, bind. rewrite H. reflexivity. Qed.

Lemma get_field_ok (object : Z) (f : azn_gc_object -> Z) (o : azn_gc_object) (s : state) :
  record_at object s = Some o -> get_field object f s = Ok (f o) s.
Proof. unfold record_at, get_field. intros ->. reflexivity. Qed.

Lemma record_at_write (object p v : Z) (s : state) :
  record_at object (write_size_t p v s) = record_at object s.
Proof. reflexivity. Qed.

(** What [free] does, whatever its outcome. *)

Lemma free_trace (p : Z) (s : state) :
  trace (final (free p s)) = trace s ++ [EvFree p].
Proof.
  unfold free. destruct (p =? nullptr); [reflexivity|].
  destruct (heap s !! p); reflexivity.
Qed.

Lemma free_objects (p : Z) (s : state) :
  objects (final (free p s)) = objects s.
Proof.
  unfold free. destruct (p =? nullptr); [reflexivity|].
  destruct (heap s !! p); reflexivity.
Qed.

Lemma free_heap_other (p q : Z) (s : state) :
  q <> p -> heap (final (free p s)) !! q = heap s !! q.
Proof.
  intros Hne. unfold free. destruct (p =? nullptr); [reflexivity|].
  destruct (heap s !! p); simpl; [|reflexivity].
  apply lookup_delete_ne. congruence.
Qed.

Lemma free_heap_gone (p : Z) (s : state) :
  p <> nullptr -> heap (final (free p s)) !! p = None.
Proof.
  intros Hne. unfold free. destruct (Z.eqb_spec p nullptr); [contradiction|].
  destruct (heap s !! p) eqn:Hp; simpl; [|exact Hp].
  apply lookup_delete_eq.
Qed.

Lemma free_returns (p : Z) (s : state) :
  returned (free p s) = (p =? nullptr) || bool_decide (is_Some (heap s !! p)).
Proof.
  unfold free. destruct (p =? nullptr); [reflexivity|].
  destruct (heap s !! p); reflexivity.
Qed.

(** ** [retain] and [release], one call *)

Lemma retain_spec (object : Z) (o : azn_gc_object) (v : Z) (s : state) :
  record_at object s = Some o ->
  read_size_t' (count o) s = Some v ->
  retain' object s = Ok tt (write_size_t (count o) (wrap' (v + 1)) s).
Proof.
  intros Ho Hv. unfold azn_gc_object_retain.
  rewrite (bind_ok _ _ _ _ _ (get_field_ok _ count _ _ Ho)).
  rewrite (bind_ok _ _ _ _ _ (load_size_t_ok _ _ _ Hv)).
  eapply store_size_t_ok. exact Hv.
Qed.

(** The part of [release] that runs once the counter has been found to be
    zero. *)
Lemma release_spec (object : Z) (o : azn_gc_object) (v : Z) (s : state) :
  record_at object s = Some o ->
  read_size_t' (count o) s = Some v ->
  release' object s =
    let s' := write_size_t (count o) (wrap' (v - 1)) s in
    if wrap' (v - 1) =? 0 then free (value o) (after_cleanup o s')
    else Ok tt s'.
Proof.
  intros Ho Hv. unfold azn_gc_object_release.
  rewrite (bind_ok _ _ _ _ _ (get_field_ok _ count _ _ Ho)).
  rewrite (bind_ok _ _ _ _ _ (load_size_t_ok _ _ _ Hv)).
  rewrite (bind_ok _ _ _ _ _ (store_size_t_ok _ _ (wrap' (v - 1)) _ Hv)).
  set (s' := write_size_t _ _ s).
  assert (Ho' : record_at object s' = Some o) by exact Ho.
  assert (Hv' : read_size_t' (count o) s' = Some (wrap' (v - 1)))
    by (eapply read_write_same; exact Hv).
  rewrite (bind_ok _ _ _ _ _ (get_field_ok _ count _ _ Ho')).
  rewrite (bind_ok _ _ _ _ _ (load_size_t_ok _ _ _ Hv')).
  simpl. destruct (wrap' (v - 1) =? 0); [|reflexivity].
  rewrite (bind_ok _ _ _ _ _ (get_field_ok _ destructor _ _ Ho')).
  unfold after_cleanup, mbind, M_bind, bind, mret, M_ret, ret, call, modify, get_field.
  unfold record_at in Ho. subst s'.
  destruct (destructor o =? nullptr);
    cbn [negb objects log write_size_t set_heap]; rewrite ?Ho;
    cbn [negb objects log write_size_t set_heap]; rewrite ?Ho; reflexivity.
Qed.

(** ** [init] *)

Lemma set_field_ok (object : Z) (upd : azn_gc_object -> azn_gc_object)
    (g : azn_gc_object) (s : state) :
  record_at object s = Some g ->
  set_field object upd s = Ok tt (set_objects <[object := upd g]> s).
Proof. unfold record_at, set_field. intros ->. reflexivity. Qed.

Lemma record_at_set (object : Z) (g x : azn_gc_object) (s : state) :
  record_at object s = Some g ->
  record_at object (set_objects <[object := x]> s) = Some x.
Proof.
  unfold record_at. intros [Hn _]%deref_Some. apply deref_Some.
  split; [assumption|]. simpl. apply lookup_insert_eq.
Qed.

(** [malloc] always returns; it touches no record, and logs its answer. *)
Lemma malloc_spec (n : Z) (s : state) :
  exists p sa,
    malloc n s = Ok p sa /\
    objects sa = objects s /\
    trace sa = trace s ++ [EvMalloc n p] /\
    ((serves n s = false /\ p = nullptr /\ heap sa = heap s /\ brk sa = brk s) \/
     (serves n s = true /\ p = brk s /\
      heap sa = <[p := mk_block n None]> (heap s) /\
      brk sa = brk s + Z.max n 1)).
Proof.
  unfold malloc. destruct (serves n s) eqn:Hs.
  - exists (brk s), (grant n s). repeat split. right. repeat split.
  - exists nullptr, (log (EvMalloc n nullptr) s). repeat split. left. repeat split.
Qed.

(** When [init] returns, the record is filled in, its counter reads 1, its
    payload is held and is not the counter's block, and two allocations have
    been logged. *)
Lemma init_returns (object size d : Z) (s s1 : state) :
  init' object size d s = Ok tt s1 ->
  exists o,
    record_at object s1 = Some o /\
    destructor o = d /\
    read_size_t' (count o) s1 = Some 1 /\
    value o <> count o /\
    payload_held o s1 = true /\
    trace s1 = trace s ++ [EvMalloc size (value o); EvMalloc SZ (count o)].
Proof.
  unfold azn_gc_object_init. intros H.
  destruct (malloc_spec size s) as (p & sa & Hm & Hoa & Hta & Hpa).
  rewrite (bind_ok _ _ _ _ _ Hm) in H.
  destruct (record_at object sa) as [g|] eqn:Hg.
  2:{ unfold record_at in Hg. unfold mbind, M_bind, bind, set_field in H.
      rewrite Hg in H. discriminate. }
  rewrite (bind_ok _ _ _ _ _ (set_field_ok _ _ _ _ Hg)) in H.
  pose proof (record_at_set _ _ (with_value p g) _ Hg) as Hg1.
  rewrite (bind_ok _ _ _ _ _ (set_field_ok _ _ _ _ Hg1)) in H.
  pose proof (record_at_set _ _ (with_destructor d (with_value p g)) _ Hg1) as Hg2.
  set (s2 := set_objects _ (set_objects _ sa)) in *.
  destruct (malloc_spec SZ s2) as (c & sb & Hm2 & Hob & Htb & Hpb).
  rewrite (bind_ok _ _ _ _ _ Hm2) in H.
  assert (Hg3 : record_at object sb = Some (with_destructor d (with_value p g)))
    by (unfold record_at in *; rewrite Hob; exact Hg2).
  rewrite (bind_ok _ _ _ _ _ (set_field_ok _ _ _ _ Hg3)) in H.
  pose proof (record_at_set _ _
    (with_count c (with_destructor d (with_value p g))) _ Hg3) as Hg4.
  set (s5 := set_objects _ sb) in *.
  rewrite (bind_ok _ _ _ _ _ (get_field_ok _ count _ _ Hg4)) in H.
  simpl in H. unfold store_size_t in H.
  destruct (deref (heap s5) c) as [b|] eqn:Hb; [|discriminate].
  destruct (Z.leb_spec SZ (blk_size b)); [|discriminate].
  injection H as <-.
  apply deref_Some in Hb as [Hc Hb].
  assert (Hheap5 : heap s5 = heap sb) by reflexivity.
  assert (Hheap2 : heap s2 = heap sa) by reflexivity.
  assert (Hbrk2 : brk s2 = brk sa) by reflexivity.
  destruct Hpb as [(_ & -> & _)|(_ & Hcb & Hhb & _)]; [contradiction|].
  exists (with_count c (with_destructor d (with_value p g))).
  split; [exact Hg4|]. split; [reflexivity|].
  split.
  { apply read_size_t_Some. exists (mk_block (blk_size b) (Some 1)).
    split; [|auto]. apply deref_Some. split; [exact Hc|].
    simpl. rewrite lookup_alter_eq. simpl in Hb. rewrite Hb. reflexivity. }
  assert (Hpc : p <> c).
  { destruct Hpa as [(_ & -> & _)|(_ & -> & _ & Hbk)]; [unfold nullptr in *; congruence|].
    rewrite Hcb, Hbrk2, Hbk. lia. }
  split; [exact Hpc|].
  split.
  { unfold payload_held. simpl value.
    destruct (Z.eqb_spec p nullptr) as [|Hp]; [reflexivity|]. simpl.
    apply bool_decide_eq_true.
    rewrite lookup_alter_ne by congruence. rewrite Hhb.
    rewrite lookup_insert_ne by congruence. rewrite Hheap2.
    destruct Hpa as [(_ & -> & _)|(_ & Hpb' & -> & _)]; [contradiction|].
    rewrite lookup_insert_eq. eauto. }
  simpl. rewrite Htb.
  change (trace s2) with (trace sa). rewrite Hta, <- app_assoc. reflexivity.
Qed.

(** ** Runs *)

Lemma run_app (object : Z) (l1 l2 : list op) (s s1 : state) :
  run' object l1 s = Ok tt s1 ->
  run' object (l1 ++ l2) s = run' object l2 s1.
Proof.
  revert s. induction l1 as [|x l1 IH]; intros s H.
  - injection H as <-. reflexivity.
  - simpl in *. unfold mbind, M_bind, bind in *.
    destruct (step' object x s) as [[] s'|s']; [|discriminate].
    apply IH. exact H.
Qed.

Lemma run_app_ub (object : Z) (l1 l2 : list op) (s s1 : state) :
  run' object l1 s = UB s1 ->
  run' object (l1 ++ l2) s = UB s1.
Proof.
  revert s. induction l1 as [|x l1 IH]; intros s H.
  - discriminate.
  - simpl in *. unfold mbind, M_bind, bind in *.
    destruct (step' object x s) as [[] s'|s']; [|exact H].
    apply IH. exact H.
Qed.

Lemma run_cons (object : Z) (x : op) (l : list op) (s s1 : state) :
  step' object x s = Ok tt s1 ->
  run' object (x :: l) s = run' object l s1.
Proof. intros H. simpl. unfold mbind, M_bind, bind. rewrite H. reflexivity. Qed.

Lemma run_one (object : Z) (x : op) (s : state) :
  run' object [x] s = step' object x s.
Proof.
  simpl. unfold mbind, M_bind, bind.
  destruct (step' object x s) as [[] s'|s']; reflexivity.
Qed.

(** [k] calls to [retain] add [k] to the counter, in [size_t] arithmetic, and
    change nothing else. *)
Lemma retains_spec (object : Z) (o : azn_gc_object) (k : nat) :
  forall (v : Z) (s : state),
    record_at object s = Some o ->
    read_size_t' (count o) s = Some v ->
    0 <= v < MOD ->
    run' object (repeat Retain k) s =
      Ok tt (write_size_t (count o) (wrap' (v + Z.of_nat k)) s).
Proof.
  induction k as [|k IH]; intros v s Ho Hv Hr.
  - simpl. rewrite Z.add_0_r, wrap_small by exact Hr.
    rewrite (write_read _ _ _ Hv). reflexivity.
  - cbn [repeat]. rewrite (run_cons object Retain _ _ _ (retain_spec _ _ _ _ Ho Hv)).
    rewrite (IH (wrap' (v + 1))).
    + rewrite write_write, wrap_add. do 3 f_equal. lia.
    + exact Ho.
    + eapply read_write_same. exact Hv.
    + apply wrap_range.
Qed.

(** [j] calls to [release] none of which brings the counter to zero take [j]
    from the counter, in [size_t] arithmetic, and change nothing else. *)
Lemma releases_spec (object : Z) (o : azn_gc_object) (j : nat) :
  forall (v : Z) (s : state),
    record_at object s = Some o ->
    read_size_t' (count o) s = Some v ->
    0 <= v < MOD ->
    (forall i, 1 <= i <= Z.of_nat j -> wrap' (v - i) <> 0) ->
    run' object (repeat Release j) s =
      Ok tt (write_size_t (count o) (wrap' (v - Z.of_nat j)) s).
Proof.
  induction j as [|j IH]; intros v s Ho Hv Hr Hnz.
  - simpl. rewrite Z.sub_0_r, wrap_small by exact Hr.
    rewrite (write_read _ _ _ Hv). reflexivity.
  - cbn [repeat].
    assert (Hstep : release' object s =
                    Ok tt (write_size_t (count o) (wrap' (v - 1)) s)).
    { rewrite (release_spec _ _ _ _ Ho Hv). cbv zeta.
      destruct (Z.eqb_spec (wrap' (v - 1)) 0) as [Hz|_]; [|reflexivity].
      exfalso. apply (Hnz 1); [lia|exact Hz]. }
    rewrite (run_cons object Release _ _ _ Hstep).
    rewrite (IH (wrap' (v - 1))).
    + rewrite write_write, wrap_sub. do 3 f_equal. lia.
    + exact Ho.
    + eapply read_write_same. exact Hv.
    + apply wrap_range.
    + intros i Hi. rewrite wrap_sub.
      replace (v - 1 - i) with (v - (1 + i)) by ring. apply Hnz. lia.
Qed.

(** ** Observations across one call *)

Lemma counter_eq (object : Z) (o : azn_gc_object) (s : state) :
  record_at object s = Some o -> counter' object s = read_size_t' (count o) s.
Proof. intros H. unfold counter. rewrite H. reflexivity. Qed.

Lemma read_size_t_heap (p : Z) (s s' : state) :
  heap s' !! p = heap s !! p -> read_size_t' p s' = read_size_t' p s.
Proof. intros H. unfold read_size_t, deref. rewrite H. reflexivity. Qed.

Lemma after_cleanup_trace (o : azn_gc_object) (s : state) :
  trace (after_cleanup o s) = trace s ++ cleanup_events o.
Proof.
  unfold after_cleanup, cleanup_events.
  destruct (destructor o =? nullptr); simpl; [rewrite app_nil_r|]; reflexivity.
Qed.

Lemma after_cleanup_heap (o : azn_gc_object) (s : state) :
  heap (after_cleanup o s) = heap s.
Proof. unfold after_cleanup. destruct (destructor o =? nullptr); reflexivity. Qed.

Lemma after_cleanup_objects (o : azn_gc_object) (s : state) :
  objects (after_cleanup o s) = objects s.
Proof. unfold after_cleanup. destruct (destructor o =? nullptr); reflexivity. Qed.

(** The state a finalizing [release] ends in: counter at zero, destructor
    called, payload passed to [free]. *)
Lemma finalize_trace (o : azn_gc_object) (s : state) :
  trace (final (free (value o) (after_cleanup o s))) = trace s ++ finalize_events o.
Proof.
  rewrite free_trace, after_cleanup_trace, <- app_assoc. reflexivity.
Qed.

Lemma finalize_record (object : Z) (o : azn_gc_object) (s : state) :
  record_at object (final (free (value o) (after_cleanup o s))) = record_at object s.
Proof. unfold record_at. rewrite free_objects, after_cleanup_objects. reflexivity. Qed.

Lemma finalize_heap_other (o : azn_gc_object) (q : Z) (s : state) :
  q <> value o ->
  heap (final (free (value o) (after_cleanup o s))) !! q = heap s !! q.
Proof. intros H. rewrite free_heap_other by exact H. rewrite after_cleanup_heap. reflexivity. Qed.

Lemma finalize_returns (o : azn_gc_object) (s : state) :
  returned (free (value o) (after_cleanup o s)) = payload_held o s.
Proof. rewrite free_returns, after_cleanup_heap. reflexivity. Qed.

Lemma payload_held_write (o : azn_gc_object) (v : Z) (s : state) :
  value o <> count o ->
  payload_held o (write_size_t (count o) v s) = payload_held o s.
Proof.
  intros H. unfold payload_held. rewrite heap_write_other by exact H. reflexivity.
Qed.

Lemma returned_final {A : Type} (r : result A) :
  returned r = true -> exists a, r = Ok a (final r).
Proof. destruct r as [a s|s]; [eauto|discriminate]. Qed.

Lemma cleanups_finalize (o : azn_gc_object) :
  cleanups (finalize_events o) = if destructor o =? nullptr then 0%nat else 1%nat.
Proof.
  unfold finalize_events, cleanup_events.
  destruct (destructor o =? nullptr); reflexivity.
Qed.

(** ** C6: [retain] *)

(** C6 (as amended).  A [retain] on a record whose counter can be read
    returns, adds one to the counter in [size_t] arithmetic (so the counter
    grows by exactly one unless it was [SIZE_MAX], from where it wraps to 0),
    and changes nothing else: the record, every other block, the size of the
    counter's block, the set of live blocks, the allocator and the trace (no
    destructor call, no [malloc], no [free]) are as before. *)
Theorem retain_frame (object : Z) (o : azn_gc_object) (v : Z) (s : state) :
  record_at object s = Some o ->
  read_size_t' (count o) s = Some v ->
  exists s',
    retain' object s = Ok tt s' /\
    counter' object s' = Some (wrap' (v + 1)) /\
    (0 <= v < SIZE_MAX sizeof_size_t -> counter' object s' = Some (v + 1)) /\
    (v = SIZE_MAX sizeof_size_t -> counter' object s' = Some 0) /\
    objects s' = objects s /\
    (forall q, q <> count o -> heap s' !! q = heap s !! q) /\
    blk_size <$> heap s' !! count o = blk_size <$> heap s !! count o /\
    dom (heap s') = dom (heap s) /\
    trace s' = trace s /\
    brk s' = brk s /\ avail s' = avail s /\ malloc0_null s' = malloc0_null s.
Proof.
  intros Ho Hv. exists (write_size_t (count o) (wrap' (v + 1)) s).
  assert (Hc : counter' object (write_size_t (count o) (wrap' (v + 1)) s)
               = Some (wrap' (v + 1))).
  { rewrite (counter_eq _ o) by exact Ho. eapply read_write_same. exact Hv. }
  split; [apply retain_spec; assumption|].
  split; [exact Hc|].
  split. { intros Hr. rewrite Hc, wrap_small; [reflexivity|]. unfold SIZE_MAX in Hr. lia. }
  split. { intros ->. rewrite Hc. f_equal. unfold SIZE_MAX, wrap.
           replace (SIZE_MOD sizeof_size_t - 1 + 1) with (SIZE_MOD sizeof_size_t) by ring.
           apply Z.mod_same. pose proof SIZE_MOD_large. lia. }
  split; [reflexivity|].
  split. { intros q Hq. apply heap_write_other. exact Hq. }
  split. { simpl. rewrite lookup_alter_eq. destruct (heap s !! count o); reflexivity. }
  split. { simpl. apply dom_alter_L. }
  repeat split.
Qed.

(** ** C3: [release] *)

(** C3.  A [release] on a record whose counter [v] is positive leaves the
    counter at [v - 1].  It calls out exactly when that is zero: then the
    destructor, if there is one, is called on the payload and, after that
    call, the payload is passed to [free]; otherwise the trace and the
    payload block are untouched. *)
Theorem release_effect (object : Z) (o : azn_gc_object) (v : Z) (s : state) :
  record_at object s = Some o ->
  read_size_t' (count o) s = Some v ->
  0 < v < MOD ->
  value o <> count o ->
  counter' object (final (release' object s)) = Some (v - 1) /\
  trace (final (release' object s)) =
    trace s ++ (if v - 1 =? 0
                then cleanup_events o ++ [EvFree (value o)]
                else []) /\
  (v - 1 <> 0 ->
     release' object s = Ok tt (write_size_t (count o) (v - 1) s)) /\
  (v - 1 = 0 ->
     returned (release' object s) = payload_held o s /\
     (value o <> nullptr -> heap (final (release' object s)) !! value o = None)).
Proof.
  intros Ho Hv Hr Hne.
  rewrite (release_spec _ _ _ _ Ho Hv). cbv zeta.
  rewrite (wrap_small (v - 1)) by lia.
  destruct (Z.eqb_spec (v - 1) 0) as [Hz|Hz].
  - split.
    { rewrite (counter_eq _ o) by (rewrite finalize_record; exact Ho).
      rewrite (read_size_t_heap _ (write_size_t (count o) (v - 1) s))
        by (apply finalize_heap_other; congruence).
      eapply read_write_same. exact Hv. }
    split; [rewrite finalize_trace; reflexivity|].
    split; [intros; contradiction|]. intros _.
    split.
    { rewrite finalize_returns. apply payload_held_write. exact Hne. }
    intros Hp. apply free_heap_gone. exact Hp.
  - split.
    { simpl final. rewrite (counter_eq _ o) by exact Ho.
      eapply read_write_same. exact Hv. }
    split; [simpl; rewrite app_nil_r; reflexivity|].
    split; [reflexivity|]. intros; contradiction.
Qed.

(** ** C7: the counter's storage *)

(** C7.  Whatever the counter holds, a [release] on a record whose payload
    and counter are distinct blocks leaves the counter's block live and of
    the same size, and never passes it to [free]: the events it adds do not
    contain [EvFree (count o)].  Every block other than the payload stays
    live. *)
Theorem release_keeps_counter_storage (object : Z) (o : azn_gc_object) (v : Z) (s : state) :
  record_at object s = Some o ->
  read_size_t' (count o) s = Some v ->
  value o <> count o ->
  (exists added,
     trace (final (release' object s)) = trace s ++ added /\
     ~ In (EvFree (count o)) added) /\
  blk_size <$> heap (final (release' object s)) !! count o =
    blk_size <$> heap s !! count o /\
  is_Some (heap (final (release' object s)) !! count o) /\
  (forall q, q <> value o -> is_Some (heap s !! q) ->
             is_Some (heap (final (release' object s)) !! q)).
Proof.
  intros Ho Hv Hne.
  pose proof Hv as (b & [Hc Hb]%deref_Some & _)%read_size_t_Some.
  rewrite (release_spec _ _ _ _ Ho Hv). cbv zeta.
  set (s' := write_size_t (count o) (wrap' (v - 1)) s).
  assert (Hsz : blk_size <$> heap s' !! count o = blk_size <$> heap s !! count o).
  { simpl. rewrite lookup_alter_eq. destruct (heap s !! count o); reflexivity. }
  assert (Hkeep : forall q, is_Some (heap s !! q) -> is_Some (heap s' !! q)).
  { intros q [x Hx]. simpl. destruct (decide (count o = q)) as [<-|Hq].
    - rewrite lookup_alter_eq, Hx. simpl. eauto.
    - rewrite lookup_alter_ne by exact Hq. eauto. }
  destruct (wrap' (v - 1) =? 0).
  - split.
    { exists (finalize_events o). split; [rewrite finalize_trace; reflexivity|].
      unfold finalize_events, cleanup_events.
      destruct (destructor o =? nullptr); simpl; intros H;
        intuition (try discriminate; congruence). }
    rewrite finalize_heap_other by congruence.
    split; [exact Hsz|]. split; [apply Hkeep; rewrite Hb; eauto|].
    intros q Hq Hs. rewrite finalize_heap_other by exact Hq. apply Hkeep, Hs.
  - split.
    { exists []. split; [simpl; rewrite app_nil_r; reflexivity|]. intros []. }
    split; [exact Hsz|]. split; [apply Hkeep; rewrite Hb; eauto|].
    intros q _ Hs. apply Hkeep, Hs.
Qed.

(** A [release] that finds the counter at one (more generally, that brings it
    to zero) on a record that holds its payload. *)
Lemma release_finalizes (object : Z) (o : azn_gc_object) (v : Z) (s : state) :
  record_at object s = Some o ->
  read_size_t' (count o) s = Some v ->
  wrap' (v - 1) = 0 ->
  value o <> count o ->
  payload_held o s = true ->
  exists s2,
    release' object s = Ok tt s2 /\
    trace s2 = trace s ++ finalize_events o /\
    record_at object s2 = Some o /\
    read_size_t' (count o) s2 = Some 0 /\
    (value o <> nullptr -> heap s2 !! value o = None) /\
    (forall q, q <> value o -> q <> count o -> heap s2 !! q = heap s !! q).
Proof.
  intros Ho Hv Hz Hne Hp.
  pose proof (release_spec _ _ _ _ Ho Hv) as Hrel. cbv zeta in Hrel.
  rewrite Hz in Hrel. simpl in Hrel.
  set (r := free (value o) (after_cleanup o (write_size_t (count o) 0 s))) in *.
  destruct (returned_final r) as [[] Hr].
  { unfold r. rewrite finalize_returns, payload_held_write by exact Hne. exact Hp. }
  exists (final r). split; [congruence|].
  split; [unfold r; rewrite finalize_trace; reflexivity|].
  split; [unfold r; rewrite finalize_record; exact Ho|].
  split.
  { unfold r. rewrite (read_size_t_heap _ (write_size_t (count o) 0 s))
      by (apply finalize_heap_other; congruence).
    eapply read_write_same. exact Hv. }
  split; [intros Hnn; apply free_heap_gone; exact Hnn|].
  intros q Hq1 Hq2. unfold r. rewrite finalize_heap_other by exact Hq1.
  apply heap_write_other. exact Hq2.
Qed.

(** ** C10: releasing at zero *)

Lemma wrap_minus_one : wrap' (0 - 1) = SIZE_MAX sizeof_size_t.
Proof.
  unfold wrap, SIZE_MAX. pose proof SIZE_MOD_large.
  replace (0 - 1) with (MOD - 1 + (-1) * MOD) by ring.
  rewrite Z.mod_add by lia. apply Z.mod_small. lia.
Qed.

(** C10.  A [release] on a record whose counter is 0 returns with the counter
    at [SIZE_MAX = 2^w - 1], which is not zero, and with every block and the
    trace untouched: no destructor call, no [free].  The same holds of any
    [j <= SIZE_MAX] releases in a row from there: finalization is not reached
    before [2^w] further releases. *)
Theorem release_underflow (object : Z) (o : azn_gc_object) (s : state) :
  record_at object s = Some o ->
  read_size_t' (count o) s = Some 0 ->
  release' object s = Ok tt (write_size_t (count o) (SIZE_MAX sizeof_size_t) s) /\
  counter' object (write_size_t (count o) (SIZE_MAX sizeof_size_t) s)
    = Some (2 ^ (8 * SZ) - 1) /\
  0 < 2 ^ (8 * SZ) - 1 /\
  forall j : nat, Z.of_nat j <= SIZE_MAX sizeof_size_t ->
    exists s',
      run' object (repeat Release j) s = Ok tt s' /\
      trace s' = trace s /\
      dom (heap s') = dom (heap s) /\
      (0 < Z.of_nat j -> counter' object s' <> Some 0).
Proof.
  intros Ho Hv. pose proof SIZE_MOD_large as Hl.
  split.
  { rewrite (release_spec _ _ _ _ Ho Hv). cbv zeta. rewrite wrap_minus_one.
    destruct (Z.eqb_spec (SIZE_MAX sizeof_size_t) 0) as [Hz|_]; [|reflexivity].
    unfold SIZE_MAX in Hz. lia. }
  split.
  { rewrite (counter_eq _ o) by exact Ho. eapply read_write_same. exact Hv. }
  split; [fold MOD; lia|].
  intros j Hj. unfold SIZE_MAX in Hj.
  assert (Hnz : forall i, 1 <= i <= Z.of_nat j -> wrap' (0 - i) <> 0).
  { intros i Hi. apply wrap_nonzero_neg. lia. }
  exists (write_size_t (count o) (wrap' (0 - Z.of_nat j)) s).
  split; [apply releases_spec; auto; lia|].
  split; [reflexivity|]. split; [simpl; apply dom_alter_L|].
  intros Hpos. rewrite (counter_eq _ o) by exact Ho.
  rewrite (read_write_same _ _ _ _ Hv). intros [= Hz]. apply (Hnz (Z.of_nat j)); [lia|exact Hz].
Qed.

(** The release that follows [init]: what the claims about longer
    sequences build on. *)
Lemma release_after_init (object size d : Z) (s s1 : state) :
  init' object size d s = Ok tt s1 ->
  counter' object s1 = Some 1 /\
  exists o s2,
    record_at object s1 = Some o /\
    destructor o = d /\
    release' object s1 = Ok tt s2 /\
    trace s2 = trace s1 ++ cleanup_events o ++ [EvFree (value o)] /\
    cleanups (trace s2) =
      (cleanups (trace s) + if Z.eqb d nullptr then 0 else 1)%nat /\
    counter' object s2 = Some 0 /\
    (value o <> nullptr ->
       is_Some (heap s1 !! value o) /\ heap s2 !! value o = None).
Proof.
  intros (o & Ho & Hd & Hv & Hne & Hp & Ht)%init_returns.
  split; [rewrite (counter_eq _ o) by exact Ho; exact Hv|].
  destruct (release_finalizes _ _ _ _ Ho Hv) as (s2 & Hrel & Ht2 & Ho2 & Hv2 & Hgone & _);
    [reflexivity|exact Hne|exact Hp|].
  exists o, s2. split; [exact Ho|]. split; [exact Hd|]. split; [exact Hrel|].
  split; [exact Ht2|].
  split.
  { rewrite Ht2, Ht, !cleanups_app, cleanups_finalize, Hd. simpl. lia. }
  split; [rewrite (counter_eq _ o) by exact Ho2; exact Hv2|].
  intros Hnn. split; [|apply Hgone, Hnn].
  unfold payload_held in Hp. apply orb_true_iff in Hp as [Hp|Hp].
  - apply Z.eqb_eq in Hp. contradiction.
  - apply bool_decide_eq_true in Hp. exact Hp.
Qed.

(** ** C4: the first owner *)

(** C4.  When [init] returns, whatever the size and the destructor, the
    counter reads 1, and one [release] then returns having finalized the
    object: the destructor, if there is one, has been called on the payload,
    the payload has been passed to [free] and is no longer live, and the
    counter reads 0. *)
Theorem init_then_release (object size d : Z) (s s1 : state) :
  init' object size d s = Ok tt s1 ->
  counter' object s1 = Some 1 /\
  exists o s2,
    record_at object s1 = Some o /\
    destructor o = d /\
    release' object s1 = Ok tt s2 /\
    trace s2 = trace s1 ++ cleanup_events o ++ [EvFree (value o)] /\
    cleanups (trace s2) =
      (cleanups (trace s) + if Z.eqb d nullptr then 0 else 1)%nat /\
    counter' object s2 = Some 0 /\
    (value o <> nullptr ->
       is_Some (heap s1 !! value o) /\ heap s2 !! value o = None).
Proof.
  intros (o & Ho & Hd & Hv & Hne & Hp & Ht)%init_returns.
  split; [rewrite (counter_eq _ o) by exact Ho; exact Hv|].
  destruct (release_finalizes _ _ _ _ Ho Hv) as (s2 & Hrel & Ht2 & Ho2 & Hv2 & Hgone & _);
    [reflexivity|exact Hne|exact Hp|].
  exists o, s2. split; [exact Ho|]. split; [exact Hd|]. split; [exact Hrel|].
  split; [exact Ht2|].
  split.
  { rewrite Ht2, Ht, !cleanups_app, cleanups_finalize, Hd. simpl. lia. }
  split; [rewrite (counter_eq _ o) by exact Ho2; exact Hv2|].
  intros Hnn. split; [|apply Hgone, Hnn].
  unfold payload_held in Hp. apply orb_true_iff in Hp as [Hp|Hp].
  - apply Z.eqb_eq in Hp. contradiction.
  - apply bool_decide_eq_true in Hp. exact Hp.
Qed.

(** ** [init], forwards *)

(** On a valid record, [init] comes down to its last statement, the store
    through [object->count], in the state its first five statements build. *)
Lemma init_steps (object size d : Z) (g : azn_gc_object) (s : state) :
  record_at object s = Some g ->
  let p := if serves size s then brk s else nullptr in
  let sa := final (malloc size s) in
  let s2 := set_objects <[object := with_destructor d (with_value p g)]>
              (set_objects <[object := with_value p g]> sa) in
  let c := if serves SZ sa then brk sa else nullptr in
  let sb := final (malloc SZ s2) in
  init' object size d s =
    store_size_t' c 1 (set_objects <[object := mk_object p d c]> sb).
Proof.
  intros Hg p sa s2 c sb. unfold azn_gc_object_init.
  assert (Hm : malloc size s = Ok p sa).
  { unfold p, sa, malloc. destruct (serves size s); reflexivity. }
  rewrite (bind_ok _ _ _ _ _ Hm).
  assert (Hga : record_at object sa = Some g).
  { unfold sa, malloc. destruct (serves size s); exact Hg. }
  rewrite (bind_ok _ _ _ _ _ (set_field_ok _ _ _ _ Hga)).
  pose proof (record_at_set _ _ (with_value p g) _ Hga) as Hg1.
  rewrite (bind_ok _ _ _ _ _ (set_field_ok _ _ _ _ Hg1)).
  pose proof (record_at_set _ _ (with_destructor d (with_value p g)) _ Hg1) as Hg2.
  fold s2 in Hg2 |- *.
  assert (Hm2 : malloc SZ s2 = Ok c sb).
  { unfold c, sb, malloc. change (serves SZ s2) with (serves SZ sa).
    destruct (serves SZ sa); reflexivity. }
  rewrite (bind_ok _ _ _ _ _ Hm2).
  assert (Hg3 : record_at object sb = Some (with_destructor d (with_value p g))).
  { unfold sb, malloc. destruct (serves SZ s2); exact Hg2. }
  rewrite (bind_ok _ _ _ _ _ (set_field_ok _ _ _ _ Hg3)).
  pose proof (record_at_set _ _
    (with_count c (with_destructor d (with_value p g))) _ Hg3) as Hg4.
  rewrite (bind_ok _ _ _ _ _ (get_field_ok _ count _ _ Hg4)).
  reflexivity.
Qed.

Lemma heap_malloc_served (n : Z) (s : state) :
  serves n s = true ->
  heap (final (malloc n s)) = <[brk s := mk_block n None]> (heap s).
Proof. intros H. unfold malloc. rewrite H. reflexivity. Qed.

Lemma malloc_not_served (n : Z) (s : state) :
  serves n s = false ->
  malloc n s = Ok nullptr (log (EvMalloc n nullptr) s).
Proof. intros H. unfold malloc. rewrite H. reflexivity. Qed.

(** [init] returns when the counter's storage is served (at a non-null
    address). *)
Lemma init_ok (object size d : Z) (g : azn_gc_object) (s : state) :
  record_at object s = Some g ->
  serves SZ (final (malloc size s)) = true ->
  brk (final (malloc size s)) <> nullptr ->
  exists s1, init' object size d s = Ok tt s1.
Proof.
  intros Hg Hs Hb. rewrite (init_steps _ _ _ _ _ Hg). cbv zeta.
  rewrite Hs. unfold store_size_t, deref.
  destruct (Z.eqb_spec (brk (final (malloc size s))) nullptr) as [|_];
    [contradiction|].
  cbn [heap set_objects].
  rewrite heap_malloc_served by exact Hs. cbn [brk set_objects].
  rewrite lookup_insert_eq. cbn [blk_size].
  rewrite Z.leb_refl. eauto.
Qed.

(** [init] does not return when the counter's storage is not served: the
    null pointer is stored in [count], and the store through it is undefined.
    Nothing is checked on the way. *)
Lemma init_ub (object size d : Z) (g : azn_gc_object) (s : state) :
  record_at object s = Some g ->
  serves SZ (final (malloc size s)) = false ->
  exists s',
    init' object size d s = UB s' /\
    record_at object s' =
      Some (mk_object (if serves size s then brk s else nullptr) d nullptr) /\
    heap s' = heap (final (malloc size s)) /\
    trace s' = trace (final (malloc size s)) ++ [EvMalloc SZ nullptr].
Proof.
  intros Hg Hs. rewrite (init_steps _ _ _ _ _ Hg). cbv zeta.
  rewrite Hs. unfold store_size_t, deref. simpl (nullptr =? nullptr).
  eexists. split; [reflexivity|].
  split.
  { unfold record_at. apply deref_Some. split.
    - unfold record_at in Hg. apply deref_Some in Hg. tauto.
    - simpl. apply lookup_insert_eq. }
  rewrite malloc_not_served by exact Hs. split; reflexivity.
Qed.

Lemma serves_sizeof (s : state) : SZ <= avail s -> serves SZ s = true.
Proof.
  intros H. unfold serves.
  destruct (Z.leb_spec SZ (avail s)); [|lia].
  destruct (Z.eqb_spec SZ 0) as [Hz|_]; [unfold SIZEOF in Hz; lia|].
  rewrite andb_false_r. reflexivity.
Qed.

(** ** C8: empty payload, no destructor *)

(** C8.  On a valid record, with an allocator that serves the counter's
    storage, [init] with size 0 and a null destructor returns, whether
    [malloc(0)] answers with a block or with the null pointer, and the
    [release] that follows returns as well.  The trace then holds the two
    allocations and the [free] of the payload, and no destructor call. *)
Theorem init_zero_size_then_release (object : Z) (g : azn_gc_object) (s : state) :
  record_at object s = Some g ->
  SZ <= avail s ->
  0 < brk s ->
  exists s1 s2 p c,
    init' object 0 nullptr s = Ok tt s1 /\
    release' object s1 = Ok tt s2 /\
    trace s2 = trace s ++ [EvMalloc 0 p; EvMalloc SZ c; EvFree p] /\
    cleanups (trace s2) = cleanups (trace s).
Proof.
  intros Hg Hav Hbrk.
  assert (Hpos : 0 < SZ) by (unfold SIZEOF; lia).
  destruct (init_ok object 0 nullptr g s Hg) as [s1 Hinit].
  { apply serves_sizeof. unfold malloc. destruct (serves 0 s); simpl; lia. }
  { unfold malloc, nullptr. destruct (serves 0 s); simpl; lia. }
  destruct (release_after_init _ _ _ _ _ Hinit)
    as (_ & o & s2 & Ho & Hd & Hrel & Ht2 & Hcl & _).
  pose proof Hinit as (o' & Ho' & _ & _ & _ & _ & Ht1)%init_returns.
  assert (o' = o) by congruence. subst o'.
  exists s1, s2, (value o), (count o).
  split; [exact Hinit|]. split; [exact Hrel|].
  split.
  { rewrite Ht2, Ht1. unfold cleanup_events. rewrite Hd. simpl.
    rewrite <- app_assoc. reflexivity. }
  rewrite Hcl. simpl. lia.
Qed.

(** ** C9: allocation failure *)

(** C9 (as amended).  [init] checks neither allocation.  When the payload is
    not served, the null pointer is stored in [value] and, provided the
    counter's storage is served, [init] goes on and returns with the
    destructor stored and the counter at 1.  When the counter's storage is
    not served, the null pointer is stored in [count] and the store of 1
    through it is undefined behaviour: [init] does not return. *)
Theorem init_allocation_failure (object size d : Z) (g : azn_gc_object) (s : state) :
  record_at object s = Some g ->
  (serves size s = false -> serves SZ s = true -> brk s <> nullptr ->
   exists s1 o,
     init' object size d s = Ok tt s1 /\
     record_at object s1 = Some o /\
     value o = nullptr /\ destructor o = d /\
     counter' object s1 = Some 1 /\
     trace s1 = trace s ++ [EvMalloc size nullptr; EvMalloc SZ (count o)]) /\
  (serves SZ (final (malloc size s)) = false ->
   exists s',
     init' object size d s = UB s' /\
     record_at object s' =
       Some (mk_object (if serves size s then brk s else nullptr) d nullptr) /\
     trace s' =
       trace s ++ [EvMalloc size (if serves size s then brk s else nullptr);
                   EvMalloc SZ nullptr]).
Proof.
  intros Hg. split.
  - intros Hp Hc Hb.
    destruct (init_ok object size d g s Hg) as [s1 Hinit].
    { unfold malloc. rewrite Hp. exact Hc. }
    { unfold malloc. rewrite Hp. exact Hb. }
    pose proof Hinit as (o & Ho & Hd & Hv & _ & _ & Ht)%init_returns.
    assert (Hval : value o = nullptr).
    { rewrite (init_steps _ _ _ _ _ Hg) in Hinit. cbv zeta in Hinit.
      rewrite Hp in Hinit. unfold store_size_t in Hinit.
      destruct (deref _ _) as [b|]; [|discriminate].
      destruct (_ <=? _); [|discriminate].
      injection Hinit as <-. unfold record_at in Ho.
      apply deref_Some in Ho as [_ Ho]. simpl in Ho.
      rewrite lookup_insert_eq in Ho. injection Ho as <-. reflexivity. }
    exists s1, o. split; [exact Hinit|]. split; [exact Ho|].
    split; [exact Hval|]. split; [exact Hd|].
    split; [rewrite (counter_eq _ o) by exact Ho; exact Hv|].
    rewrite Ht, Hval. reflexivity.
  - intros Hc. destruct (init_ub object size d g s Hg Hc) as (s' & Hi & Ho & _ & Ht).
    exists s'. split; [exact Hi|]. split; [exact Ho|].
    rewrite Ht. unfold malloc. destruct (serves size s); simpl;
      rewrite <- app_assoc; reflexivity.
Qed.

(** ** C1 and C5: retains, then releases *)

(** After [init], [k < 2^w] retains and [j <= k] releases, nothing has been
    called and the counter reads [1 + k - j] in [size_t] arithmetic. *)
Lemma retains_releases (object : Z) (o : azn_gc_object) (k j : nat) (s1 : state) :
  record_at object s1 = Some o ->
  read_size_t' (count o) s1 = Some 1 ->
  Z.of_nat k < MOD ->
  (j <= k)%nat ->
  run' object (repeat Retain k ++ repeat Release j) s1 =
    Ok tt (write_size_t (count o) (wrap' (1 + Z.of_nat k - Z.of_nat j)) s1).
Proof.
  intros Ho Hv Hk Hj. pose proof SIZE_MOD_large as Hl.
  rewrite (run_app _ _ _ _ _ (retains_spec object o k 1 s1 Ho Hv ltac:(lia))).
  rewrite (releases_spec object o j (wrap' (1 + Z.of_nat k))).
  - rewrite write_write, wrap_sub. reflexivity.
  - exact Ho.
  - eapply read_write_same. exact Hv.
  - apply wrap_range.
  - intros i Hi. rewrite wrap_sub. apply wrap_nonzero. lia.
Qed.

(** C1 (as amended).  After [init] has returned, [k] retains and [k]
    releases, for any [k < 2^w], return without any destructor call or
    [free]; the release after them, the [k+1]-th, returns having called the
    destructor (if there is one) and then freed the payload.  So the
    destructor is called exactly once, and in that last release. *)
Theorem retain_release_balance (object size d : Z) (s s1 : state) (k : nat) :
  init' object size d s = Ok tt s1 ->
  Z.of_nat k < MOD ->
  exists o s2 s3,
    record_at object s1 = Some o /\ destructor o = d /\
    run' object (repeat Retain k ++ repeat Release k) s1 = Ok tt s2 /\
    trace s2 = trace s1 /\
    cleanups (trace s2) = cleanups (trace s) /\
    release' object s2 = Ok tt s3 /\
    trace s3 = trace s2 ++ cleanup_events o ++ [EvFree (value o)] /\
    cleanups (trace s3) =
      (cleanups (trace s) + if Z.eqb d nullptr then 0 else 1)%nat /\
    run' object (repeat Retain k ++ repeat Release (S k)) s1 = Ok tt s3.
Proof.
  intros Hinit Hk.
  destruct (release_after_init _ _ _ _ _ Hinit)
    as (_ & o & s3 & Ho & Hd & Hrel & Ht3 & Hcl & _).
  pose proof Hinit as (o' & Ho' & _ & Hv & _ & _ & Ht1)%init_returns.
  assert (o' = o) by congruence. subst o'.
  assert (Hrun : run' object (repeat Retain k ++ repeat Release k) s1 = Ok tt s1).
  { rewrite (retains_releases _ o) by (auto; lia).
    replace (1 + Z.of_nat k - Z.of_nat k) with 1 by ring.
    rewrite wrap_small by (pose proof SIZE_MOD_large; lia).
    rewrite (write_read _ _ _ Hv). reflexivity. }
  exists o, s1, s3.
  split; [exact Ho|]. split; [exact Hd|]. split; [exact Hrun|].
  split; [reflexivity|].
  split. { rewrite Ht1, cleanups_app. simpl. lia. }
  split; [exact Hrel|]. split; [exact Ht3|]. split; [exact Hcl|].
  replace (S k) with (k + 1)%nat by lia.
  rewrite repeat_app, app_assoc.
  rewrite (run_app _ _ _ _ _ Hrun). simpl repeat. rewrite run_one. exact Hrel.
Qed.

(** C5 (as amended).  With [N = k + 1 <= 2^w] owners ([init] and [k]
    retains), any [j < N] releases return without any destructor call or
    [free]: the trace is as [init] left it, and so is the payload block. *)
Theorem no_premature_finalization (object size d : Z) (s s1 : state) (k j : nat) :
  init' object size d s = Ok tt s1 ->
  Z.of_nat k < MOD ->
  (j < k + 1)%nat ->
  exists o s2,
    record_at object s1 = Some o /\
    run' object (repeat Retain k ++ repeat Release j) s1 = Ok tt s2 /\
    trace s2 = trace s1 /\
    cleanups (trace s2) = cleanups (trace s) /\
    heap s2 !! value o = heap s1 !! value o /\
    payload_held o s2 = true /\
    counter' object s2 = Some (wrap' (1 + Z.of_nat k - Z.of_nat j)).
Proof.
  intros Hinit Hk Hj.
  pose proof Hinit as (o & Ho & _ & Hv & Hne & Hp & Ht1)%init_returns.
  exists o, (write_size_t (count o) (wrap' (1 + Z.of_nat k - Z.of_nat j)) s1).
  split; [exact Ho|].
  split; [apply retains_releases; auto; lia|].
  split; [reflexivity|].
  split. { simpl trace. rewrite Ht1, cleanups_app. simpl. lia. }
  split; [apply heap_write_other; exact Hne|].
  split; [rewrite payload_held_write by exact Hne; exact Hp|].
  rewrite (counter_eq _ o) by exact Ho. eapply read_write_same. exact Hv.
Qed.

(** ** C2: balanced sequences *)

Lemma peak_ge (ops : list op) : forall g, g <= peak g ops.
Proof. induction ops as [|[] ops IH]; intros g; simpl; lia. Qed.

Lemma balanced_nil_of_zero (ops : list op) : balanced 0 ops = true -> ops = [].
Proof. destruct ops as [|[] ops]; [reflexivity|discriminate|discriminate]. Qed.

(** Along a balanced sequence that never has more than [2^w] owners, the
    counter is the number of owners [g] (in [size_t] arithmetic); as long as
    there is an owner nothing has been called and the payload is held; once
    there is none the sequence is over, and finalization has run once. *)
Lemma balanced_prefix (object : Z) (o : azn_gc_object) (pre : list op) :
  forall (post : list op) (g : Z) (s : state),
    record_at object s = Some o ->
    read_size_t' (count o) s = Some (wrap' g) ->
    value o <> count o ->
    payload_held o s = true ->
    1 <= g ->
    balanced g (pre ++ post) = true ->
    peak g (pre ++ post) <= MOD ->
    exists sa g',
      run' object pre s = Ok tt sa /\
      record_at object sa = Some o /\
      read_size_t' (count o) sa = Some (wrap' g') /\
      balanced g' post = true /\
      peak g' post <= MOD /\
      ((1 <= g' /\ payload_held o sa = true /\ trace sa = trace s) \/
       (g' = 0 /\ post = [] /\ trace sa = trace s ++ finalize_events o)).
Proof.
  induction pre as [|x pre IH]; intros post g s Ho Hv Hne Hp Hg Hbal Hpk.
  - exists s, g. simpl in *. repeat (split; [assumption || reflexivity|]).
    left. auto.
  - pose proof SIZE_MOD_large as Hl.
    pose proof (peak_ge (pre ++ post)) as Hge.
    destruct x; simpl in Hbal, Hpk; apply andb_true_iff in Hbal as [_ Hbal].
    + (* retain *)
      pose proof (retain_spec _ _ _ _ Ho Hv) as Hstep. rewrite wrap_add in Hstep.
      destruct (IH post (g + 1) (write_size_t (count o) (wrap' (g + 1)) s))
        as (sa & g' & Hrun & Hoa & Hva & Hba & Hpa & Hcase);
        [exact Ho|eapply read_write_same; exact Hv|exact Hne
        |rewrite payload_held_write by exact Hne; exact Hp|lia|exact Hbal|lia|].
      exists sa, g'. rewrite (run_cons object Retain _ _ _ Hstep).
      repeat (split; [assumption|]). exact Hcase.
    + (* release *)
      destruct (Z.eq_dec g 1) as [->|Hg1].
      * apply balanced_nil_of_zero in Hbal.
        apply app_eq_nil in Hbal as [-> ->].
        destruct (release_finalizes _ _ _ _ Ho Hv)
          as (s2 & Hrel & Ht2 & Ho2 & Hv2 & _);
          [rewrite wrap_sub; reflexivity|exact Hne|exact Hp|].
        exists s2, 0. rewrite run_one.
        split; [exact Hrel|]. split; [exact Ho2|]. split; [exact Hv2|].
        split; [reflexivity|]. split; [simpl; lia|]. right. auto.
      * assert (Hstep : release' object s =
                        Ok tt (write_size_t (count o) (wrap' (g - 1)) s)).
        { rewrite (release_spec _ _ _ _ Ho Hv). cbv zeta. rewrite wrap_sub.
          destruct (Z.eqb_spec (wrap' (g - 1)) 0) as [Hz|_]; [|reflexivity].
          exfalso. revert Hz. apply wrap_nonzero. specialize (Hge (g - 1)). lia. }
        destruct (IH post (g - 1) (write_size_t (count o) (wrap' (g - 1)) s))
          as (sa & g' & Hrun & Hoa & Hva & Hba & Hpa & Hcase);
          [exact Ho|eapply read_write_same; exact Hv|exact Hne
          |rewrite payload_held_write by exact Hne; exact Hp|lia|exact Hbal|lia|].
        exists sa, g'. rewrite (run_cons object Release _ _ _ Hstep).
        repeat (split; [assumption|]). exact Hcase.
Qed.

(** C2 (as amended).  After [init] has returned, any balanced sequence of
    retains and releases that never has more than [2^w] owners returns with
    at most one destructor call made; and a call of the sequence that makes
    a destructor call is a [release] that finds the counter at 1 and leaves
    it at 0. *)
Theorem cleanup_at_most_once (object size d : Z) (s s1 : state) (ops : list op) :
  init' object size d s = Ok tt s1 ->
  balanced 1 ops = true ->
  peak 1 ops <= MOD ->
  (exists s2,
     run' object ops s1 = Ok tt s2 /\
     (cleanups (trace s2) <= cleanups (trace s) + 1)%nat) /\
  (forall pre x post, ops = pre ++ x :: post ->
     exists sa,
       run' object pre s1 = Ok tt sa /\
       (cleanups (trace (final (step' object x sa))) <> cleanups (trace sa) ->
        x = Release /\
        counter' object sa = Some 1 /\
        counter' object (final (step' object x sa)) = Some 0)).
Proof.
  intros Hinit Hbal Hpk. pose proof SIZE_MOD_large as Hl.
  pose proof Hinit as (o & Ho & Hd & Hv & Hne & Hp & Ht1)%init_returns.
  assert (Hv1 : read_size_t' (count o) s1 = Some (wrap' 1))
    by (rewrite wrap_small by lia; exact Hv).
  split.
  - destruct (balanced_prefix object o ops [] 1 s1)
      as (s2 & g' & Hrun & _ & _ & _ & _ & Hcase);
      [exact Ho|exact Hv1|exact Hne|exact Hp|lia
      |rewrite app_nil_r; exact Hbal|rewrite app_nil_r; exact Hpk|].
    exists s2. split; [exact Hrun|].
    assert (Hc1 : cleanups (trace s1) = cleanups (trace s))
      by (rewrite Ht1, cleanups_app; simpl; lia).
    destruct Hcase as [(_ & _ & ->)|(_ & _ & ->)].
    + lia.
    + rewrite cleanups_app, cleanups_finalize, Hc1.
      destruct (destructor o =? nullptr); lia.
  - intros pre x post ->.
    destruct (balanced_prefix object o pre (x :: post) 1 s1)
      as (sa & g' & Hrun & Hoa & Hva & Hba & Hpa & Hcase);
      [exact Ho|exact Hv1|exact Hne|exact Hp|lia|exact Hbal|exact Hpk|].
    exists sa. split; [exact Hrun|].
    destruct Hcase as [(Hg' & Hpa' & _)|(_ & [=] & _)].
    destruct x; simpl step.
    + rewrite (retain_spec _ _ _ _ Hoa Hva). simpl. intros []. reflexivity.
    + pose proof (release_spec _ _ _ _ Hoa Hva) as Hrel. cbv zeta in Hrel.
      destruct (Z.eqb_spec (wrap' (wrap' g' - 1)) 0) as [Hz|_].
      * intros _. split; [reflexivity|].
        pose proof (wrap_pred_zero _ (wrap_range g') Hz) as H1.
        split; [rewrite (counter_eq _ o) by exact Hoa; rewrite Hva, H1; reflexivity|].
        destruct (release_finalizes _ _ _ _ Hoa Hva Hz Hne Hpa')
          as (s2 & Hrel2 & _ & Ho2 & Hv2 & _).
        rewrite Hrel2. simpl final.
        rewrite (counter_eq _ o) by exact Ho2. exact Hv2.
      * rewrite Hrel. simpl. intros []. reflexivity.
Qed.

End Properties.

(** * Instances

    The statements above at concrete machines: first where their hypotheses
    hold, then where the counter overflows a 4-byte [size_t]. *)

Lemma s_live_init : azn_gc_object_init 8 100 16 55 s0 = Ok tt s_live.
Proof. vm_compute. reflexivity. Qed.

Lemma s_live32_init : azn_gc_object_init 4 100 16 55 s0 = Ok tt s_live32.
Proof. vm_compute. reflexivity. Qed.

Lemma s_live32_record : record_at 100 s_live32 = Some (mk_object 1 55 17).
Proof. vm_compute. reflexivity. Qed.

Lemma s_live32_counter : read_size_t 4 17 s_live32 = Some 1.
Proof. vm_compute. reflexivity. Qed.

Lemma K32_Z : Z.of_nat K32 = 2 ^ 32.
Proof. unfold K32. apply Z2Nat.id. apply Z.pow_nonneg. lia. Qed.

Lemma K32m2_Z : Z.of_nat K32m2 = 2 ^ 32 - 2.
Proof. unfold K32m2. apply Z2Nat.id. vm_compute. discriminate. Qed.

(** After [2^32] retains a 4-byte counter is back where it started. *)
Lemma retains_wrap32 (K : nat) :
  Z.of_nat K = 2 ^ 32 ->
  run 4 100 (repeat Retain K) s_live32 = Ok tt s_live32.
Proof.
  intros HK.
  rewrite (retains_spec 4 100 _ K 1 s_live32 s_live32_record s_live32_counter)
    by (vm_compute; split; congruence).
  rewrite HK.
  change (wrap 4 (1 + 2 ^ 32)) with 1.
  change (count (mk_object 1 55 17)) with 17.
  rewrite (write_read 4 17 1 s_live32 s_live32_counter). reflexivity.
Qed.

(** ** Where the hypotheses hold *)

(** Scenario B, with three retains: the destructor runs once, in the fourth
    release. *)
Lemma retain_release_balance_witness :
  exists s2 s3,
    run 8 100 (repeat Retain 3 ++ repeat Release 3) s_live = Ok tt s2 /\
    cleanups (trace s2) = 0%nat /\
    azn_gc_object_release 8 100 s2 = Ok tt s3 /\
    cleanups (trace s3) = 1%nat.
Proof.
  destruct (retain_release_balance 8 100 16 55 s0 s_live 3)
    as (o & s2 & s3 & _ & _ & Hrun & _ & Hc2 & Hrel & _ & Hc3 & _).
  - vm_compute. reflexivity.
  - reflexivity.
  - exists s2, s3. repeat split; assumption.
Defined.

Lemma cleanup_at_most_once_witness :
  exists s2,
    run 8 100 [Retain; Release; Retain; Release; Release] s_live = Ok tt s2 /\
    (cleanups (trace s2) <= 1)%nat.
Proof.
  destruct (cleanup_at_most_once 8 100 16 55 s0 s_live
              [Retain; Release; Retain; Release; Release])
    as [(s2 & Hrun & Hc) _].
  - vm_compute. reflexivity.
  - reflexivity.
  - vm_compute. discriminate.
  - exists s2. split; assumption.
Defined.

Lemma release_effect_witness :
  counter 8 100 (final (azn_gc_object_release 8 100 s_live)) = Some 0 /\
  trace (final (azn_gc_object_release 8 100 s_live)) =
    trace s_live ++ [EvDestructor 55 1; EvFree 1].
Proof.
  destruct (release_effect 8 100 (mk_object 1 55 17) 1 s_live)
    as (Hc & Ht & _).
  - vm_compute. reflexivity.
  - vm_compute. reflexivity.
  - split; reflexivity.
  - discriminate.
  - split; [exact Hc|exact Ht].
Defined.

Lemma init_then_release_witness :
  counter 8 100 s_live = Some 1 /\
  exists s2,
    azn_gc_object_release 8 100 s_live = Ok tt s2 /\ counter 8 100 s2 = Some 0.
Proof.
  destruct (init_then_release 8 100 16 55 s0 s_live)
    as (Hc & o & s2 & _ & _ & Hrel & _ & _ & Hc2 & _).
  - vm_compute. reflexivity.
  - split; [exact Hc|]. exists s2. split; assumption.
Defined.

(** Scenario D: three retains, three releases, and the destructor has not
    run. *)
Lemma no_premature_finalization_witness :
  exists s2,
    run 8 100 (repeat Retain 3 ++ repeat Release 3)
      (final (azn_gc_object_init 8 100 32 77 s0)) = Ok tt s2 /\
    cleanups (trace s2) = 0%nat /\
    counter 8 100 s2 = Some 1.
Proof.
  destruct (no_premature_finalization 8 100 32 77 s0
              (final (azn_gc_object_init 8 100 32 77 s0)) 3 3)
    as (o & s2 & _ & Hrun & _ & Hc & _ & _ & Hcnt).
  - vm_compute. reflexivity.
  - reflexivity.
  - lia.
  - exists s2. repeat split; assumption.
Defined.

Lemma retain_frame_witness :
  exists s',
    azn_gc_object_retain 8 100 s_live = Ok tt s' /\
    counter 8 100 s' = Some 2 /\
    objects s' = objects s_live /\ trace s' = trace s_live.
Proof.
  destruct (retain_frame 8 100 (mk_object 1 55 17) 1 s_live)
    as (s' & Hret & Hc & _ & _ & Hobj & _ & _ & _ & Htr & _).
  - vm_compute. reflexivity.
  - vm_compute. reflexivity.
  - exists s'. repeat split; assumption.
Defined.

(** The finalizing release: the counter's block, at 17, is still there. *)
Lemma release_keeps_counter_storage_witness :
  is_Some (heap (final (azn_gc_object_release 8 100 s_live)) !! 17).
Proof.
  destruct (release_keeps_counter_storage 8 100 (mk_object 1 55 17) 1 s_live)
    as (_ & _ & Hlive & _).
  - vm_compute. reflexivity.
  - vm_compute. reflexivity.
  - discriminate.
  - exact Hlive.
Defined.

(** Scenario C, on an allocator that answers [malloc(0)] with null. *)
Lemma init_zero_size_then_release_witness :
  exists s1 s2,
    azn_gc_object_init 8 100 0 nullptr (fresh 1024 true) = Ok tt s1 /\
    azn_gc_object_release 8 100 s1 = Ok tt s2 /\
    cleanups (trace s2) = 0%nat.
Proof.
  destruct (init_zero_size_then_release 8 100 (mk_object 7 7 7) (fresh 1024 true))
    as (s1 & s2 & p & c & Hinit & Hrel & _ & Hc).
  - vm_compute. reflexivity.
  - vm_compute. discriminate.
  - reflexivity.
  - exists s1, s2. repeat split; assumption.
Defined.

(** A payload of 4096 bytes on a 1024-byte allocator; then a 16-byte payload
    on a 16-byte allocator, where nothing is left for the counter. *)
Lemma init_allocation_failure_witness :
  (exists s1 o,
     azn_gc_object_init 8 100 4096 55 s0 = Ok tt s1 /\
     record_at 100 s1 = Some o /\ value o = nullptr /\
     counter 8 100 s1 = Some 1) /\
  (exists s',
     azn_gc_object_init 8 100 16 55 s_tight = UB s' /\
     record_at 100 s' = Some (mk_object 1 55 nullptr)).
Proof.
  split.
  - destruct (init_allocation_failure 8 100 4096 55 (mk_object 7 7 7) s0)
      as [H _]; [vm_compute; reflexivity|].
    destruct H as (s1 & o & Hinit & Ho & Hv & _ & Hc & _).
    + vm_compute. reflexivity.
    + vm_compute. reflexivity.
    + discriminate.
    + exists s1, o. repeat split; assumption.
  - destruct (init_allocation_failure 8 100 16 55 (mk_object 7 7 7) s_tight)
      as [_ H]; [vm_compute; reflexivity|].
    destruct H as (s' & Hinit & Ho & _).
    + vm_compute. reflexivity.
    + exists s'. split; [exact Hinit|exact Ho].
Defined.

(** One release too many after Scenario A. *)
Lemma release_underflow_witness :
  azn_gc_object_release 8 100 (final (azn_gc_object_release 8 100 s_live)) =
    Ok tt (write_size_t 17 (2 ^ 64 - 1)
             (final (azn_gc_object_release 8 100 s_live))).
Proof.
  destruct (release_underflow 8 100 (mk_object 1 55 17)
              (final (azn_gc_object_release 8 100 s_live)))
    as (Hrel & _).
  - vm_compute. reflexivity.
  - vm_compute. reflexivity.
  - exact Hrel.
Defined.

(** ** Where the counter overflows *)

Lemma balanced_retains (k : nat) :
  forall (g : Z) (rest : list op),
    0 < g ->
    balanced g (repeat Retain k ++ rest) = balanced (g + Z.of_nat k) rest.
Proof.
  induction k as [|k IH]; intros g rest Hg.
  - simpl. rewrite Z.add_0_r. reflexivity.
  - cbn [repeat app balanced].
    destruct (Z.ltb_spec 0 g); [|lia]. simpl.
    rewrite IH by lia. f_equal. lia.
Qed.

(** The state the first release after [2^32] retains leaves: finalized, with
    [2^32] owners outstanding. *)
Lemma first_release32 (K : nat) :
  Z.of_nat K = 2 ^ 32 ->
  run 4 100 (repeat Retain K ++ [Release]) s_live32 =
    Ok tt (final (azn_gc_object_release 4 100 s_live32)).
Proof.
  intros HK. rewrite (run_app 4 100 _ _ _ _ (retains_wrap32 K HK)), run_one.
  vm_compute. reflexivity.
Qed.

(** [2^32] retains, then as many releases and one more: the first release
    finalizes, the last one finalizes again. *)
Lemma double_finalization32 (K : nat) :
  Z.of_nat K = 2 ^ 32 ->
  cleanups (trace (final
    (run 4 100 (repeat Retain K ++ repeat Release 1) s_live32))) = 1%nat /\
  returned
    (run 4 100 (repeat Retain K ++ repeat Release (S K)) s_live32) = false /\
  cleanups (trace (final
    (run 4 100 (repeat Retain K ++ repeat Release (S K)) s_live32))) = 2%nat.
Proof.
  intros HK. split.
  { cbn [repeat]. rewrite (first_release32 K HK). vm_compute. reflexivity. }
  assert (Hrun :
    run 4 100 (repeat Retain K ++ repeat Release (S K)) s_live32 =
    run 4 100 [Release]
      (write_size_t 17 1 (final (azn_gc_object_release 4 100 s_live32)))).
  { destruct K as [|K']; [discriminate HK|].
    assert (HK' : Z.of_nat K' = 2 ^ 32 - 1) by lia.
    change (repeat Release (S (S K')))
      with ([Release] ++ repeat Release (S K')).
    rewrite app_assoc, (run_app 4 100 _ _ _ _ (first_release32 (S K') HK)).
    cbn [repeat]. rewrite repeat_cons.
    rewrite (run_app 4 100 _ _ _ _
      (releases_spec 4 100 (mk_object 1 55 17) K' 0
         (final (azn_gc_object_release 4 100 s_live32))
         ltac:(vm_compute; reflexivity) ltac:(vm_compute; reflexivity)
         ltac:(vm_compute; split; congruence)
         ltac:(intros i Hi; apply wrap_nonzero_neg;
               change (SIZE_MOD 4) with (2 ^ 32); lia))).
    rewrite HK'.
    change (wrap 4 (0 - (2 ^ 32 - 1))) with 1. reflexivity. }
  rewrite Hrun. split; vm_compute; reflexivity.
Qed.

Lemma premature_finalization32 (K : nat) :
  Z.of_nat K = 2 ^ 32 ->
  (1 < K + 1)%nat /\
  is_Some (heap s_live32 !! 1) /\
  cleanups (trace (final
    (run 4 100 (repeat Retain K ++ repeat Release 1) s_live32))) = 1%nat /\
  heap (final
    (run 4 100 (repeat Retain K ++ repeat Release 1) s_live32)) !! 1 = None.
Proof.
  intros HK. split; [lia|].
  split; [vm_compute; eauto|].
  cbn [repeat]. rewrite (first_release32 K HK).
  split; vm_compute; reflexivity.
Qed.

Lemma second_finalization32 (K : nat) :
  Z.of_nat K = 2 ^ 32 ->
  balanced 1 (repeat Retain K ++ [Release; Retain; Release]) = true /\
  cleanups (trace (final
    (run 4 100 (repeat Retain K ++ [Release; Retain; Release]) s_live32)))
    = 2%nat.
Proof.
  intros HK. split.
  - rewrite balanced_retains by lia. rewrite HK. vm_compute. reflexivity.
  - rewrite (run_app 4 100 _ _ _ _ (retains_wrap32 K HK)). vm_compute. reflexivity.
Qed.

Lemma counter_at_max32 (K : nat) :
  Z.of_nat K = 2 ^ 32 - 2 ->
  run 4 100 (repeat Retain K) s_live32 = Ok tt s_max32.
Proof.
  intros HK.
  rewrite (retains_spec 4 100 _ _ 1 s_live32 s_live32_record s_live32_counter)
    by (vm_compute; split; congruence).
  rewrite HK.
  change (wrap 4 (1 + (2 ^ 32 - 2))) with (2 ^ 32 - 1). reflexivity.
Qed.

(** C1, as stated, fails at [k = 2^32] on a platform with a 4-byte [size_t]:
    the destructor is called in the first of the [k + 1] releases, not the
    last; and the last calls it a second time, before freeing the payload a
    second time. *)
Lemma retain_release_balance_overflow :
  cleanups (trace (final
    (run 4 100 (repeat Retain K32 ++ repeat Release 1) s_live32))) = 1%nat /\
  returned
    (run 4 100 (repeat Retain K32 ++ repeat Release (S K32)) s_live32) = false /\
  cleanups (trace (final
    (run 4 100 (repeat Retain K32 ++ repeat Release (S K32)) s_live32))) = 2%nat.
Proof. exact (double_finalization32 K32 K32_Z). Qed.

(** C5, as stated, fails with [N = 2^32 + 1] owners on a platform with a
    4-byte [size_t]: one release, fewer than [N], calls the destructor and
    frees the payload (the block at address 1). *)
Lemma no_premature_finalization_overflow :
  (1 < K32 + 1)%nat /\
  is_Some (heap s_live32 !! 1) /\
  cleanups (trace (final
    (run 4 100 (repeat Retain K32 ++ repeat Release 1) s_live32))) = 1%nat /\
  heap (final
    (run 4 100 (repeat Retain K32 ++ repeat Release 1) s_live32)) !! 1 = None.
Proof. exact (premature_finalization32 K32 K32_Z). Qed.

(** C2, as stated, fails on a platform with a 4-byte [size_t]: this sequence
    is balanced (every release has an owner behind it), and the destructor is
    called twice. *)
Lemma cleanup_at_most_once_overflow :
  balanced 1 (repeat Retain K32 ++ [Release; Retain; Release]) = true /\
  cleanups (trace (final
    (run 4 100 (repeat Retain K32 ++ [Release; Retain; Release]) s_live32)))
    = 2%nat.
Proof. exact (second_finalization32 K32 K32_Z). Qed.

(** C6, as stated, fails on a platform with a 4-byte [size_t]: [2^32 - 2]
    retains after [init] bring the counter to [SIZE_MAX], and the next
    retain brings it to 0, not to [SIZE_MAX + 1]. *)
Lemma retain_frame_overflow :
  run 4 100 (repeat Retain K32m2) s_live32 = Ok tt s_max32 /\
  counter 4 100 s_max32 = Some 4294967295 /\
  counter 4 100 (final (azn_gc_object_retain 4 100 s_max32)) = Some 0.
Proof.
  split; [exact (counter_at_max32 K32m2 K32m2_Z)|].
  split; vm_compute; reflexivity.
Qed.

(** C9, as stated, fails when it is the counter's storage that is not
    served: [init] does not complete its remaining steps, the store through
    the null [count] is undefined behaviour. *)
Lemma init_allocation_failure_counter :
  returned (azn_gc_object_init 8 100 16 55 s_tight) = false /\
  record_at 100 (final (azn_gc_object_init 8 100 16 55 s_tight)) =
    Some (mk_object 1 55 nullptr) /\
  trace (final (azn_gc_object_init 8 100 16 55 s_tight)) =
    [EvMalloc 16 1; EvMalloc 8 nullptr].
Proof. repeat split; vm_compute; reflexivity. Qed.

(** * Further properties of the three operations *)

Section Composition.

Variable sizeof_size_t : positive.

Local Abbreviation SZ := (SIZEOF sizeof_size_t).
Local Abbreviation MOD := (SIZE_MOD sizeof_size_t).
Local Abbreviation wrap' := (wrap sizeof_size_t).
Local Abbreviation read_size_t' := (read_size_t sizeof_size_t).
Local Abbreviation counter' := (counter sizeof_size_t).
Local Abbreviation init' := (azn_gc_object_init sizeof_size_t).
Local Abbreviation retain' := (azn_gc_object_retain sizeof_size_t).
Local Abbreviation release' := (azn_gc_object_release sizeof_size_t).
Local Abbreviation step' := (step sizeof_size_t).
Local Abbreviation run' := (run sizeof_size_t).
Local Abbreviation run_on' := (run_on sizeof_size_t).

(** ** Pairs of calls *)

(** X1.  On a record whose counter holds a [size_t] other than 0, a [retain]
    followed by a [release] returns and leaves the machine exactly as it was
    (this includes the counter at [SIZE_MAX], which passes through 0 on the
    way). *)
Theorem retain_release_identity (object : Z) (o : azn_gc_object) (v : Z) (s : state) :
  record_at object s = Some o ->
  read_size_t' (count o) s = Some v ->
  0 < v < MOD ->
  (retain' object;; release' object) s = Ok tt s.
Proof.
  intros Ho Hv Hr.
  rewrite (bind_ok _ _ _ _ _ (retain_spec _ _ _ _ _ Ho Hv)).
  rewrite (release_spec sizeof_size_t object o (wrap' (v + 1))).
  - cbv zeta. rewrite wrap_sub, write_write.
    replace (v + 1 - 1) with v by ring.
    rewrite (wrap_small _ v) by lia.
    destruct (Z.eqb_spec v 0); [lia|].
    rewrite (write_read _ _ _ _ Hv). reflexivity.
  - exact Ho.
  - eapply read_write_same. exact Hv.
Qed.

(** X2.  On a record whose counter holds a [size_t] above 1, a [release]
    followed by a [retain] returns and leaves the machine exactly as it
    was. *)
Theorem release_retain_identity (object : Z) (o : azn_gc_object) (v : Z) (s : state) :
  record_at object s = Some o ->
  read_size_t' (count o) s = Some v ->
  1 < v < MOD ->
  (release' object;; retain' object) s = Ok tt s.
Proof.
  intros Ho Hv Hr.
  assert (Hrel : release' object s =
                 Ok tt (write_size_t (count o) (wrap' (v - 1)) s)).
  { rewrite (release_spec _ _ _ _ _ Ho Hv). cbv zeta.
    rewrite (wrap_small _ (v - 1)) by lia.
    destruct (Z.eqb_spec (v - 1) 0); [lia|reflexivity]. }
  rewrite (bind_ok _ _ _ _ _ Hrel).
  rewrite (retain_spec sizeof_size_t object o (wrap' (v - 1))).
  - rewrite wrap_add, write_write.
    replace (v - 1 + 1) with v by ring.
    rewrite (wrap_small _ v) by lia.
    rewrite (write_read _ _ _ _ Hv). reflexivity.
  - exact Ho.
  - eapply read_write_same. exact Hv.
Qed.

(** X3.  On a record whose counter is 0, a [retain] followed by a [release]
    runs finalization: the destructor, if there is one, is called on the
    payload, and the payload is passed to [free].  On a record that has been
    finalized before, whose payload block is gone, that second [free] is
    undefined behaviour. *)
Theorem retain_release_at_zero (object : Z) (o : azn_gc_object) (s : state) :
  record_at object s = Some o ->
  read_size_t' (count o) s = Some 0 ->
  value o <> count o ->
  (retain' object;; release' object) s = free (value o) (after_cleanup o s) /\
  trace (final ((retain' object;; release' object) s)) =
    trace s ++ cleanup_events o ++ [EvFree (value o)] /\
  returned ((retain' object;; release' object) s) = payload_held o s.
Proof.
  intros Ho Hv Hne. pose proof (SIZE_MOD_large sizeof_size_t) as Hl.
  assert (Heq : (retain' object;; release' object) s =
                free (value o) (after_cleanup o s)).
  { rewrite (bind_ok _ _ _ _ _ (retain_spec _ _ _ _ _ Ho Hv)).
    rewrite (release_spec sizeof_size_t object o (wrap' (0 + 1))).
    - cbv zeta. rewrite wrap_sub, write_write. simpl (0 + 1 - 1).
      rewrite (wrap_small _ 0) by lia. simpl (0 =? 0).
      rewrite (write_read _ _ _ _ Hv). reflexivity.
    - exact Ho.
    - eapply read_write_same. exact Hv. }
  rewrite Heq. split; [reflexivity|].
  split; [apply finalize_trace|apply finalize_returns].
Qed.

(** X9.  A [release] on a record whose counter can be read has one way not
    to return: it brings the counter to 0 and the payload is neither null nor
    a live block. *)
Theorem release_returns_iff (object : Z) (o : azn_gc_object) (v : Z) (s : state) :
  record_at object s = Some o ->
  read_size_t' (count o) s = Some v ->
  value o <> count o ->
  returned (release' object s) =
    negb (wrap' (v - 1) =? 0) || payload_held o s.
Proof.
  intros Ho Hv Hne. rewrite (release_spec _ _ _ _ _ Ho Hv). cbv zeta.
  destruct (wrap' (v - 1) =? 0); [|reflexivity].
  rewrite finalize_returns. apply payload_held_write. exact Hne.
Qed.

(** ** What one call can touch *)

Lemma step_no_record (object : Z) (x : op) (s : state) :
  record_at object s = None -> step' object x s = UB s.
Proof.
  intros H. unfold record_at in H.
  destruct x; unfold step, azn_gc_object_retain, azn_gc_object_release,
    mbind, M_bind, bind, get_field; rewrite H; reflexivity.
Qed.

Lemma step_no_counter (object : Z) (o : azn_gc_object) (x : op) (s : state) :
  record_at object s = Some o ->
  read_size_t' (count o) s = None ->
  step' object x s = UB s.
Proof.
  intros Ho Hv. unfold record_at in Ho.
  destruct x; unfold step, azn_gc_object_retain, azn_gc_object_release,
    mbind, M_bind, bind, get_field, load_size_t; rewrite Ho, Hv; reflexivity.
Qed.

(** A call is determined by the contents of the record it goes through. *)
Lemma step_by_record (a b : Z) (o : azn_gc_object) (x : op) (s : state) :
  record_at a s = Some o ->
  record_at b s = Some o ->
  step' a x s = step' b x s.
Proof.
  intros Ha Hb.
  destruct (read_size_t' (count o) s) as [v|] eqn:Hv.
  - destruct x; simpl.
    + rewrite (retain_spec _ _ _ _ _ Ha Hv), (retain_spec _ _ _ _ _ Hb Hv). reflexivity.
    + rewrite (release_spec _ _ _ _ _ Ha Hv), (release_spec _ _ _ _ _ Hb Hv). reflexivity.
  - rewrite (step_no_counter _ _ _ _ Ha Hv), (step_no_counter _ _ _ _ Hb Hv).
    reflexivity.
Qed.

(** No call writes to a record. *)
Lemma step_objects (object : Z) (x : op) (s : state) :
  objects (final (step' object x s)) = objects s.
Proof.
  destruct (record_at object s) as [o|] eqn:Ho;
    [|rewrite step_no_record by exact Ho; reflexivity].
  destruct (read_size_t' (count o) s) as [v|] eqn:Hv;
    [|rewrite (step_no_counter _ _ _ _ Ho Hv); reflexivity].
  destruct x; simpl step.
  - rewrite (retain_spec _ _ _ _ _ Ho Hv). reflexivity.
  - rewrite (release_spec _ _ _ _ _ Ho Hv). cbv zeta.
    destruct (_ =? 0); [|reflexivity].
    rewrite free_objects, after_cleanup_objects. reflexivity.
Qed.



(** ** Copies of a record *)

(** X4.  The handles of a sequence of calls are interchangeable as long as
    they all hold the same record: the calls made through the several copies
    have the effect of the same calls made through any one copy.  The counter
    is shared by the copies. *)
Theorem copies_share_counter (a : Z) (o : azn_gc_object) (calls : list (Z * op)) :
  forall s : state,
    record_at a s = Some o ->
    (forall h, In h (map fst calls) -> record_at h s = Some o) ->
    run_on' calls s = run' a (map snd calls) s.
Proof.
  induction calls as [|[h x] calls IH]; intros s Ha Hall.
  - reflexivity.
  - simpl. unfold mbind, M_bind, bind.
    assert (Hh : record_at h s = Some o) by (apply Hall; left; reflexivity).
    rewrite (step_by_record h a o x s Hh Ha).
    pose proof (step_objects a x s) as Hobj.
    destruct (step' a x s) as [[] s'|s']; [|reflexivity].
    simpl in Hobj. apply IH.
    + unfold record_at in *. rewrite Hobj. exact Ha.
    + intros h' Hin. unfold record_at in *. rewrite Hobj.
      apply Hall. right. exact Hin.
Qed.

(** ** [init] and the allocator *)

Lemma allocator_ok_lookup (s : state) (q : Z) (b : block) :
  allocator_ok s -> heap s !! q = Some b -> q < brk s.
Proof. intros [_ H] Hq. exact (H q b Hq). Qed.

Lemma allocator_ok_fresh (s : state) (q : Z) :
  allocator_ok s -> brk s <= q -> heap s !! q = None.
Proof.
  intros Hok Hq. destruct (heap s !! q) as [b|] eqn:Hb; [|reflexivity].
  apply (allocator_ok_lookup _ _ _ Hok) in Hb. lia.
Qed.

(** [malloc] keeps the allocator's invariant, keeps every live block, and
    never moves [brk] down. *)
Lemma malloc_allocator_ok (n : Z) (s : state) :
  allocator_ok s ->
  allocator_ok (final (malloc n s)) /\
  brk s <= brk (final (malloc n s)) /\
  (forall q b, heap s !! q = Some b -> heap (final (malloc n s)) !! q = Some b).
Proof.
  intros Hok. pose proof Hok as [Hpos Hall]. unfold malloc.
  destruct (serves n s); simpl; [|repeat split; auto; lia].
  split; [|split; [lia|]].
  - split; [simpl; lia|]. simpl. intros q b.
    destruct (decide (brk s = q)) as [<-|Hq].
    + intros _. lia.
    + rewrite lookup_insert_ne by exact Hq. intros Hb.
      pose proof (Hall q b Hb) as Hlt. simpl in Hlt. lia.
  - intros q b Hb. rewrite lookup_insert_ne; [exact Hb|].
    pose proof (Hall q b Hb) as Hlt. simpl in Hlt. lia.
Qed.

Lemma init_record_needed (object size d : Z) (s s1 : state) :
  init' object size d s = Ok tt s1 -> is_Some (record_at object s).
Proof.
  intros H. destruct (record_at object s) as [g|] eqn:Hg; [eauto|exfalso].
  unfold azn_gc_object_init in H.
  destruct (malloc_spec size s) as (p & sa & Hm & Hoa & _).
  rewrite (bind_ok _ _ _ _ _ Hm) in H.
  unfold mbind, M_bind, bind, set_field in H. unfold record_at in Hg.
  rewrite Hoa, Hg in H. discriminate.
Qed.

(** The state [init] returns in, field by field. *)
Lemma init_shape (object size d : Z) (g : azn_gc_object) (s s1 : state) :
  record_at object s = Some g ->
  init' object size d s = Ok tt s1 ->
  let sa := final (malloc size s) in
  serves SZ sa = true /\
  brk sa <> nullptr /\
  record_at object s1 =
    Some (mk_object (if serves size s then brk s else nullptr) d (brk sa)) /\
  heap s1 = <[brk sa := mk_block SZ (Some 1)]> (heap sa) /\
  (forall a, a <> object -> objects s1 !! a = objects s !! a) /\
  brk s1 = brk sa + Z.max SZ 1 /\
  avail s1 = avail sa - SZ /\
  malloc0_null s1 = malloc0_null s.
Proof.
  intros Hg H sa. rewrite (init_steps _ _ _ _ _ _ Hg) in H. cbv zeta in H.
  fold sa in H. unfold store_size_t, deref in H.
  destruct (serves SZ sa) eqn:Hs; [|discriminate].
  destruct (Z.eqb_spec (brk sa) nullptr) as [|Hb]; [discriminate|].
  cbn [heap set_objects] in H.
  rewrite heap_malloc_served in H by exact Hs. cbn [brk set_objects] in H.
  fold sa in H. rewrite lookup_insert_eq in H. cbn [blk_size] in H.
  rewrite Z.leb_refl in H. injection H as <-.
  split; [reflexivity|]. split; [exact Hb|].
  split.
  { unfold record_at. apply deref_Some. split.
    - unfold record_at in Hg. apply deref_Some in Hg. tauto.
    - simpl. apply lookup_insert_eq. }
  split.
  { unfold write_size_t. cbn [heap set_heap set_objects].
    rewrite heap_malloc_served by exact Hs. cbn [heap brk set_objects].
    fold sa. rewrite alter_insert_eq. reflexivity. }
  assert (Hmal : malloc SZ
            (set_objects
               <[object:=with_destructor d
                   (with_value (if serves size s then brk s else nullptr) g)]>
               (set_objects
                  <[object:=with_value (if serves size s then brk s else nullptr) g]>
                  sa)) =
          Ok (brk sa) (grant SZ
            (set_objects
               <[object:=with_destructor d
                   (with_value (if serves size s then brk s else nullptr) g)]>
               (set_objects
                  <[object:=with_value (if serves size s then brk s else nullptr) g]>
                  sa)))).
  { unfold malloc. change (serves SZ (set_objects _ (set_objects _ sa)))
      with (serves SZ sa). rewrite Hs. reflexivity. }
  fold sa. rewrite Hmal. cbn [final].
  split.
  { intros a Ha. simpl. rewrite !lookup_insert_ne by congruence.
    unfold sa, malloc. destruct (serves size s); reflexivity. }
  split; [reflexivity|]. split; [reflexivity|].
  simpl. unfold sa, malloc. destruct (serves size s); reflexivity.
Qed.

Lemma init_keeps_blocks (object size d : Z) (s s1 : state) :
  allocator_ok s ->
  init' object size d s = Ok tt s1 ->
  forall q b, heap s !! q = Some b -> heap s1 !! q = Some b.
Proof.
  intros Hok H q b Hq.
  destruct (init_record_needed _ _ _ _ _ H) as [g Hg].
  destruct (init_shape _ _ _ _ _ _ Hg H) as (_ & _ & _ & Hh & _).
  destruct (malloc_allocator_ok size s Hok) as (Hok' & _ & Hkeep).
  rewrite Hh. rewrite lookup_insert_ne; [apply Hkeep, Hq|].
  apply Hkeep in Hq. apply (allocator_ok_lookup _ _ _ Hok') in Hq. lia.
Qed.

Lemma init_fresh (object size d : Z) (s s1 : state) (o : azn_gc_object) :
  allocator_ok s ->
  init' object size d s = Ok tt s1 ->
  record_at object s1 = Some o ->
  heap s !! count o = None /\
  (value o <> nullptr -> heap s !! value o = None).
Proof.
  intros Hok H Ho.
  destruct (init_record_needed _ _ _ _ _ H) as [g Hg].
  destruct (init_shape _ _ _ _ _ _ Hg H) as (_ & _ & Ho' & _).
  rewrite Ho in Ho'. injection Ho' as ->.
  destruct (malloc_allocator_ok size s Hok) as (_ & Hle & _). simpl.
  split; [apply allocator_ok_fresh; assumption|].
  destruct (serves size s); [|intros []; reflexivity].
  intros _. apply allocator_ok_fresh; [assumption|lia].
Qed.

Lemma init_allocator_ok (object size d : Z) (s s1 : state) :
  allocator_ok s ->
  init' object size d s = Ok tt s1 ->
  allocator_ok s1.
Proof.
  intros Hok H.
  destruct (init_record_needed _ _ _ _ _ H) as [g Hg].
  destruct (init_shape _ _ _ _ _ _ Hg H) as (_ & _ & _ & Hh & _ & Hb & _).
  destruct (malloc_allocator_ok size s Hok) as ([Hpos Hall] & _ & _).
  split; [rewrite Hb; lia|]. rewrite Hh, Hb. intros q b.
  destruct (decide (brk (final (malloc size s)) = q)) as [<-|Hq].
  - intros _. lia.
  - rewrite lookup_insert_ne by exact Hq. intros Hq'.
    pose proof (Hall q b Hq') as Hlt. simpl in Hlt. lia.
Qed.

(** X5.  On an allocator that keeps its invariant, an [init] that returns
    has taken two blocks that were not live before (one, when the payload is
    null), has left every block that was live as it was, has written to no
    record but its own, and has kept the allocator's invariant. *)
Theorem init_frame (object size d : Z) (s s1 : state) :
  allocator_ok s ->
  init' object size d s = Ok tt s1 ->
  exists o,
    record_at object s1 = Some o /\
    heap s !! count o = None /\
    (value o <> nullptr -> heap s !! value o = None) /\
    (forall q b, heap s !! q = Some b -> heap s1 !! q = Some b) /\
    (forall a, a <> object -> objects s1 !! a = objects s !! a) /\
    allocator_ok s1.
Proof.
  intros Hok H.
  pose proof H as (o & Ho & _)%init_returns.
  destruct (init_fresh _ _ _ _ _ o Hok H Ho) as [Hc Hv].
  destruct (init_record_needed _ _ _ _ _ H) as [g Hg].
  destruct (init_shape _ _ _ _ _ _ Hg H) as (_ & _ & _ & _ & Hrec & _).
  exists o. split; [exact Ho|]. split; [exact Hc|]. split; [exact Hv|].
  split; [apply (init_keeps_blocks _ _ _ _ _ Hok H)|].
  split; [exact Hrec|]. apply (init_allocator_ok _ _ _ _ _ Hok H).
Qed.

(** X6.  A second [init] on a record that has been initialized gives back
    nothing of what the record held: the counter's block of the first [init]
    is still live and still reads 1, its payload block is still live, and the
    record now points to other blocks.  The trace grows by two allocations
    and no [free]. *)
Theorem init_twice_leaks (object size d size' d' : Z) (s s1 s2 : state)
    (o1 o2 : azn_gc_object) :
  allocator_ok s ->
  init' object size d s = Ok tt s1 ->
  init' object size' d' s1 = Ok tt s2 ->
  record_at object s1 = Some o1 ->
  record_at object s2 = Some o2 ->
  read_size_t' (count o1) s2 = Some 1 /\
  count o2 <> count o1 /\
  (value o1 <> nullptr ->
     is_Some (heap s2 !! value o1) /\
     value o2 <> value o1 /\ count o2 <> value o1) /\
  trace s2 = trace s1 ++ [EvMalloc size' (value o2); EvMalloc SZ (count o2)].
Proof.
  intros Hok H1 H2 Ho1 Ho2.
  pose proof (init_allocator_ok _ _ _ _ _ Hok H1) as Hok1.
  pose proof H1 as (o & Ho & _ & Hv & _ & Hp & _)%init_returns.
  assert (o = o1) by congruence. subst o.
  pose proof H2 as (o & Ho' & _ & _ & _ & _ & Ht)%init_returns.
  assert (o = o2) by congruence. subst o.
  destruct (init_fresh _ _ _ _ _ o2 Hok1 H2 Ho2) as [Hfc Hfv].
  pose proof Hv as (b & [Hc Hb]%deref_Some & _)%read_size_t_Some.
  pose proof (init_keeps_blocks _ _ _ _ _ Hok1 H2 _ _ Hb) as Hb2.
  split.
  { rewrite <- Hv. apply read_size_t_heap. rewrite Hb, Hb2. reflexivity. }
  split; [intros E; rewrite E, Hb in Hfc; discriminate|].
  split; [|exact Ht].
  intros Hnn. unfold payload_held in Hp. apply orb_true_iff in Hp as [Hp|Hp];
    [apply Z.eqb_eq in Hp; contradiction|].
  apply bool_decide_eq_true in Hp as [bp Hbp].
  split; [rewrite (init_keeps_blocks _ _ _ _ _ Hok1 H2 _ _ Hbp); eauto|].
  split.
  - intros E. rewrite E in Hfv. rewrite Hfv in Hbp by exact Hnn. discriminate.
  - intros E. rewrite E, Hbp in Hfc. discriminate.
Qed.

(** ** A whole life *)


End Composition.

(** ** Instances of the further properties *)

Lemma retain_release_identity_witness :
  (azn_gc_object_retain 8 100;; azn_gc_object_release 8 100) s_live = Ok tt s_live.
Proof.
  apply (retain_release_identity 8 100 (mk_object 1 55 17) 1 s_live).
  - vm_compute. reflexivity.
  - vm_compute. reflexivity.
  - split; reflexivity.
Defined.

Lemma release_retain_identity_witness :
  (azn_gc_object_release 8 100;; azn_gc_object_retain 8 100)
    (write_size_t 17 2 s_live) = Ok tt (write_size_t 17 2 s_live).
Proof.
  apply (release_retain_identity 8 100 (mk_object 1 55 17) 2 (write_size_t 17 2 s_live)).
  - vm_compute. reflexivity.
  - vm_compute. reflexivity.
  - split; reflexivity.
Defined.

(** A retain and a release on the object that has been finalized: the
    destructor runs a second time, and the second [free] of the block at 1
    does not return. *)
Lemma retain_release_at_zero_witness :
  trace (final ((azn_gc_object_retain 8 100;; azn_gc_object_release 8 100) s_dead)) =
    trace s_dead ++ [EvDestructor 55 1; EvFree 1] /\
  returned ((azn_gc_object_retain 8 100;; azn_gc_object_release 8 100) s_dead) = false.
Proof.
  destruct (retain_release_at_zero 8 100 (mk_object 1 55 17) s_dead)
    as (_ & Ht & Hr).
  - vm_compute. reflexivity.
  - vm_compute. reflexivity.
  - discriminate.
  - split; [exact Ht|]. rewrite Hr. vm_compute. reflexivity.
Defined.

Lemma release_returns_iff_witness :
  returned (azn_gc_object_release 8 100 s_dead) = true /\
  returned (azn_gc_object_release 8 100 s_live) = true.
Proof.
  split.
  - rewrite (release_returns_iff 8 100 (mk_object 1 55 17) 0 s_dead).
    + vm_compute. reflexivity.
    + vm_compute. reflexivity.
    + vm_compute. reflexivity.
    + discriminate.
  - rewrite (release_returns_iff 8 100 (mk_object 1 55 17) 1 s_live).
    + vm_compute. reflexivity.
    + vm_compute. reflexivity.
    + vm_compute. reflexivity.
    + discriminate.
Defined.


(** The owner at 100 retains for the owner at 200; each then releases. *)
Lemma copies_share_counter_witness :
  run_on 8 [(100, Retain); (200, Release); (100, Release)] s_shared =
  run 8 100 [Retain; Release; Release] s_shared.
Proof.
  apply (copies_share_counter 8 100 (mk_object 1 55 17)
           [(100, Retain); (200, Release); (100, Release)] s_shared).
  - vm_compute. reflexivity.
  - intros h [<-|[<-|[<-|[]]]]; vm_compute; reflexivity.
Defined.

(** A second object, at 200, made while the first is live. *)
Lemma init_frame_witness :
  exists o,
    record_at 200 (final (azn_gc_object_init 8 200 32 77 s_shared)) = Some o /\
    heap s_shared !! count o = None /\
    objects (final (azn_gc_object_init 8 200 32 77 s_shared)) !! 100 =
      objects s_shared !! 100.
Proof.
  destruct (init_frame 8 200 32 77 s_shared
              (final (azn_gc_object_init 8 200 32 77 s_shared)))
    as (o & Ho & Hc & _ & _ & Hrec & _).
  - split; [reflexivity|]. refine (bool_decide_unpack _ _). vm_compute. exact I.
  - vm_compute. reflexivity.
  - exists o. split; [exact Ho|]. split; [exact Hc|]. apply Hrec. discriminate.
Defined.

Lemma init_twice_leaks_witness :
  read_size_t 8 17 (final (azn_gc_object_init 8 100 32 77 s_live)) = Some 1 /\
  trace (final (azn_gc_object_init 8 100 32 77 s_live)) =
    trace s_live ++ [EvMalloc 32 25; EvMalloc 8 57].
Proof.
  destruct (init_twice_leaks 8 100 16 55 32 77 s0 s_live
              (final (azn_gc_object_init 8 100 32 77 s_live))
              (mk_object 1 55 17) (mk_object 25 77 57))
    as (Hv & _ & _ & Ht).
  - split; [reflexivity|]. apply map_Forall_empty.
  - vm_compute. reflexivity.
  - vm_compute. reflexivity.
  - vm_compute. reflexivity.
  - vm_compute. reflexivity.
  - split; [exact Hv|exact Ht].
Defined.

